(** * TZURONI: cross-site market matching

    A shallow embedding of src/matching.py (title normaliser, similarity
    scorer, greedy first-fit clustering, unified-product builder),
    src/types.py (the two records) and [export_csv] of src/main.py, followed
    by the properties the design document states about them.

    Modelling conventions.
    - A Python [str] is a [string] whose characters are the code points
      U+0000..U+00FF; [str.lower] and [str.isspace] are the Unicode tables
      restricted to that range, and [len] is [String.length].
    - A Python [float] is an exact rational [Q]: [>=] is [Qle_bool], numeric
      equality is [==], and the literal [1.0] is [1].  NaN, infinities,
      signed zero and rounding are outside the model.
    - A Python exception is a value of [py_exn] in the left summand of
      [result]; loops over lists are folds that stop at the first exception.
    - [rapidfuzz.fuzz.token_set_ratio] is third-party code.  The clustering
      functions take the scorer as an argument, and [Rapidfuzz] models the
      library function (version 3, no default processor).

    The second half covers the code around them: [run_pipeline] of
    src/agents.py, [collect_all] and the CSV side of [run_local_mode] of
    src/main.py, src/config.py, [MetricsTracker] of src/logging_config.py
    and [ProductRAG] of src/rag_system.py, with properties read off the
    code.
    - The process environment is a [gmap] from names to values.
    - The tracker's dict is a [gmap] from metric names to [metric_value];
      the clock reading of [log_error] is an argument.
    - A site fetcher is represented by its outcome: the exception it
      raised or the markets it returned.
    - The embedding model and numpy are third-party code: [ProductRAG] is
      modelled over an arbitrary [encode] and an arbitrary [cosine]. *)

From Stdlib Require Import Ascii String DecimalString QArith Qround Qabs Lqa.
From stdpp Require Import gmap strings list sorting.
From Equations Require Import Equations.

Close Scope Q_scope.
Local Open Scope string_scope.
Local Open Scope list_scope.
Local Open Scope nat_scope.

(* ===================================================================== *)
(** * Python primitives                                                   *)
(* ===================================================================== *)

Inductive py_exn : Set :=
| IndexError
| ValueError.

Definition result (A : Type) : Type := py_exn + A.

Definition ok {A} (x : A) : result A := inr x.
Definition raise {A} (e : py_exn) : result A := inl e.

#[global] Instance result_ret : MRet result := λ A x, inr x.

#[global] Instance result_bind : MBind result := λ A B k r,
  match r with
  | inl e => inl e
  | inr x => k x
  end.

(** [for x in xs: acc = f(acc, x)], stopping at the first exception. *)
Fixpoint for_each {A S} (f : S → A → result S) (xs : list A) (acc : S)
  : result S :=
  match xs with
  | [] => ok acc
  | x :: xs' => acc' ← f acc x; for_each f xs' acc'
  end.

(** [[f(x) for x in xs]] for a fallible [f]. *)
Fixpoint map_result {A B} (f : A → result B) (xs : list A) : result (list B) :=
  match xs with
  | [] => ok []
  | x :: xs' => y ← f x; ys ← map_result f xs'; ok (y :: ys)
  end.

Module PyStr.

Definition code (c : ascii) : N := N_of_ascii c.

Definition between (lo hi n : N) : bool := (lo <=? n)%N && (n <=? hi)%N.

(** [str.isspace] on one character: TAB..CR, FS..US, SPACE, NEL, NBSP. *)
Definition isspace (c : ascii) : bool :=
  let n := code c in
  between 9 13 n || between 28 32 n || (n =? 133)%N || (n =? 160)%N.

(** [str.lower] on one character: A-Z and the Latin-1 capitals. *)
Definition lower_char (c : ascii) : ascii :=
  let n := code c in
  if between 65 90 n || between 192 214 n || between 216 222 n
  then ascii_of_N (n + 32)
  else c.

Fixpoint lower (s : string) : string :=
  match s with
  | "" => ""
  | String c s' => String (lower_char c) (lower s')
  end.

Fixpoint lstrip (s : string) : string :=
  match s with
  | "" => ""
  | String c s' => if isspace c then lstrip s' else s
  end.

Fixpoint rstrip (s : string) : string :=
  match s with
  | "" => ""
  | String c s' =>
      match rstrip s' with
      | "" => if isspace c then "" else String c ""
      | r => String c r
      end
  end.

(** [s.strip()] *)
Definition strip (s : string) : string := rstrip (lstrip s).

(** [s.startswith(pat)] *)
Fixpoint startswith (s pat : string) {struct pat} : bool :=
  match pat with
  | "" => true
  | String a pat' =>
      match s with
      | "" => false
      | String b s' => Ascii.eqb a b && startswith s' pat'
      end
  end.

(** [pat in s] *)
Fixpoint contains (pat s : string) : bool :=
  startswith s pat ||
  match s with
  | "" => false
  | String _ s' => contains pat s'
  end.

(** Left-to-right scan of [s.replace(old, new)] for a non-empty [old];
    [skip] counts the characters of a match still to be passed over. *)
Fixpoint replace_go (old new : string) (skip : nat) (s : string) : string :=
  match s with
  | "" => ""
  | String c s' =>
      match skip with
      | S k => replace_go old new k s'
      | O =>
          if startswith s old
          then new +:+ replace_go old new (String.length old - 1) s'
          else String c (replace_go old new 0 s')
      end
  end.

(** [s.replace("", new)] puts [new] before every character and at the end. *)
Fixpoint intersperse (new s : string) : string :=
  match s with
  | "" => new
  | String c s' => new +:+ String c (intersperse new s')
  end.

(** [s.replace(old, new)] *)
Definition replace (old new s : string) : string :=
  match old with
  | "" => intersperse new s
  | _ => replace_go old new 0 s
  end.

(** [max(xs, key=key)]: the first element whose key is maximal;
    [ValueError] on an empty sequence. *)
Definition max_by {A} (key : A → nat) (xs : list A) : result A :=
  match xs with
  | [] => raise ValueError
  | x :: xs' =>
      ok (fold_left (λ best y, if key best <? key y then y else best) xs' x)
  end.

(** [xs[0]]: [IndexError] on an empty list. *)
Definition first {A} (xs : list A) : result A :=
  match xs with
  | [] => raise IndexError
  | x :: _ => ok x
  end.

(** [zip(xs, ys)] stops at the end of the shorter list. *)
Fixpoint zip {A B} (xs : list A) (ys : list B) : list (A * B) :=
  match xs, ys with
  | x :: xs', y :: ys' => (x, y) :: zip xs' ys'
  | _, _ => []
  end.

End PyStr.

(* ===================================================================== *)
(** * src/matching.py: normalize_title                                    *)
(* ===================================================================== *)

#[local] Arguments Ascii.eqb : simpl never.

(** Induction over a string two characters at a time, as the scan of
    [replace] consumes it. *)
Lemma string_pair_ind (P : string → Prop) :
  P "" →
  (∀ c, P (String c "")) →
  (∀ c d s, P s → P (String d s) → P (String c (String d s))) →
  ∀ s, P s.
Proof.
  intros Hnil Hone Hstep s.
  assert (H : P s ∧ ∀ c, P (String c s)); [|apply H].
  induction s as [|d s [IHs IHc]]; [by auto|].
  split; [apply IHc|]. intros c. by apply Hstep.
Qed.


Lemma replace2_pair r :
  PyStr.replace "  " " " (String " " (String " " r))
  = String " " (PyStr.replace "  " " " r).
Proof. reflexivity. Qed.

Lemma replace2_other c s :
  PyStr.startswith (String c s) "  " = false →
  PyStr.replace "  " " " (String c s) = String c (PyStr.replace "  " " " s).
Proof. unfold PyStr.replace. cbn [PyStr.replace_go]. by intros ->. Qed.

Lemma prefix2_cases c s :
  (c = " "%char ∧ ∃ r, s = String " " r) ∨
  PyStr.startswith (String c s) "  " = false.
Proof.
  cbn. destruct (Ascii.eqb_spec " " c) as [<-|]; [|by right].
  destruct s as [|d r]; [by right|].
  destruct (Ascii.eqb_spec " " d) as [<-|]; [left; eauto | by right].
Qed.

Lemma replace2_length_le s :
  String.length (PyStr.replace "  " " " s) ≤ String.length s.
Proof.
  induction s as [|c|c d s IHs IHd] using string_pair_ind; [done| |].
  { cbn. destruct (Ascii.eqb " " c); cbn; lia. }
  destruct (prefix2_cases c (String d s)) as [[-> [r [= -> ->]]]|Hno].
  - rewrite replace2_pair. cbn [String.length] in *. lia.
  - rewrite (replace2_other _ _ Hno). cbn [String.length] in *. lia.
Qed.

Lemma replace_two_spaces_shrinks t :
  PyStr.contains "  " t = true →
  String.length (PyStr.replace "  " " " t) < String.length t.
Proof.
  induction t as [|c|c d s IHs IHd] using string_pair_ind; [done| |].
  - cbn. by destruct (Ascii.eqb " " c).
  - destruct (prefix2_cases c (String d s)) as [[-> [r [= -> ->]]]|Hno].
    + intros _. rewrite replace2_pair. cbn [String.length].
      pose proof (replace2_length_le r). lia.
    + rewrite (replace2_other _ _ Hno).
      cbn [PyStr.contains]. rewrite Hno. cbn [orb]. intros Hc.
      apply IHd in Hc. cbn [String.length] in *. lia.
Qed.

(* The unfolding lemma of [collapse_loop] is proved without functional
   extensionality. *)
Unset Equations With Funext.

(** [while "  " in t: t = t.replace("  ", " ")] *)
Equations? collapse_loop (t : string) : string by wf (String.length t) lt :=
  collapse_loop t with bool_dec (PyStr.contains "  " t) true := {
    | left _ => collapse_loop (PyStr.replace "  " " " t)
    | right _ => t }.
Proof. by apply replace_two_spaces_shrinks. Qed.

Definition punctuation : list string :=
  ["?"; "!"; ","; "."; ":"; ";"; "("; ")"; "["; "]"].

Definition normalize_title (title : string) : string :=
  let t := PyStr.strip (PyStr.lower title) in
  let t := fold_left (λ t ch, PyStr.replace ch " " t) punctuation t in
  collapse_loop t.

(* ===================================================================== *)
(** * src/types.py                                                        *)
(* ===================================================================== *)

Record SiteMarket : Type := {
  site : string;
  id : string;
  title : string;
  price : option Q;
  url : option string;
  additional : gmap string string;
}.

Record UnifiedProduct : Type := {
  unified_title : string;
  members : list SiteMarket;
  confidence_scores : list Q;
}.

(** [sum(xs)] over floats *)
Definition Qsum (xs : list Q) : Q := fold_left Qplus xs 0%Q.

Definition average_confidence (p : UnifiedProduct) : Q :=
  match confidence_scores p with
  | [] => 0%Q
  | scores => (Qsum scores / inject_Z (Z.of_nat (length scores)))%Q
  end.

(* ===================================================================== *)
(** * src/matching.py: similarity and cluster_markets                     *)
(* ===================================================================== *)

(** [rapidfuzz.fuzz.token_set_ratio] is a third-party function: the
    clustering code is written against an arbitrary scorer, and the model of
    the library scorer is [Rapidfuzz.token_set_ratio] below. *)
Definition scorer : Type := string → string → Q.

Definition similarity (token_set_ratio : scorer) (a b : string) : Q :=
  (token_set_ratio (normalize_title a) (normalize_title b) / 100)%Q.

(** A cluster under construction: [List[Tuple[SiteMarket, float]]]. *)
Definition cluster : Type := list (SiteMarket * Q).

(** The inner loop [for cluster in clusters: ... break] for one market [m]:
    the clusters after the loop and the flag [placed]. *)
Fixpoint place (token_set_ratio : scorer) (m : SiteMarket) (threshold : Q)
    (clusters : list cluster) : result (list cluster * bool) :=
  match clusters with
  | [] => ok ([], false)
  | c :: rest =>
      head ← PyStr.first c;
      let centroid_title := title head.1 in
      let score := similarity token_set_ratio (title m) centroid_title in
      if Qle_bool threshold score
      then ok ((c ++ [(m, score)]) :: rest, true)
      else
        '(rest', placed) ← place token_set_ratio m threshold rest;
        ok (c :: rest', placed)
  end.

(** One iteration of [for m in markets]. *)
Definition add_market (token_set_ratio : scorer) (threshold : Q)
    (clusters : list cluster) (m : SiteMarket) : result (list cluster) :=
  '(clusters', placed) ← place token_set_ratio m threshold clusters;
  if placed : bool then ok clusters' else ok (clusters' ++ [[(m, 1%Q)]]).

(** Lines 20-32: the clustering pass. *)
Definition form_clusters (token_set_ratio : scorer)
    (markets : list SiteMarket) (threshold : Q) : result (list cluster) :=
  for_each (add_market token_set_ratio threshold) markets [].

(** Lines 35-45: one [UnifiedProduct] per cluster. *)
Definition build (c : cluster) : result UnifiedProduct :=
  let titles := (λ e, title e.1) <$> c in
  rep ← PyStr.max_by String.length titles;
  ok {| unified_title := rep;
        members := fst <$> c;
        confidence_scores := snd <$> c |}.

Definition cluster_markets (token_set_ratio : scorer)
    (markets : list SiteMarket) (threshold : Q)
  : result (list UnifiedProduct) :=
  clusters ← form_clusters token_set_ratio markets threshold;
  map_result build clusters.

(** The default value of the parameter [threshold]. *)
Definition default_threshold : Q := (78 # 100)%Q.

(* ===================================================================== *)
(** * The library scorer                                                  *)
(* ===================================================================== *)

Module Rapidfuzz.

(** The library's whitespace test on a string of one-byte characters, which
    every string of code points up to U+00FF is: TAB..CR, FS..US and SPACE.
    Unlike for [str.isspace], NEL (U+0085) and NBSP (U+00A0) are not
    whitespace here: they are token characters. *)
Definition is_space (c : ascii) : bool :=
  let n := PyStr.code c in
  PyStr.between 9 13 n || PyStr.between 28 32 n.

(** The library's tokeniser: the maximal runs of characters that are not
    [is_space]. *)
Fixpoint split (s : string) : list string :=
  match s with
  | "" => []
  | String c s' =>
      if is_space c then split s'
      else
        match s' with
        | "" => [String c ""]
        | String d _ =>
            if is_space d then String c "" :: split s'
            else
              match split s' with
              | w :: ws => String c w :: ws
              | [] => [String c ""]
              end
        end
  end.

(** [" ".join(xs)] *)
Fixpoint join (xs : list string) : string :=
  match xs with
  | [] => ""
  | x :: xs' =>
      match xs' with
      | [] => x
      | _ => x +:+ " " +:+ join xs'
      end
  end.

(** [sorted(tokens)] for a set of strings, in code-point order. *)
Definition sorted (tokens : gset string) : list string :=
  merge_sort String.le (elements tokens).

(** Length of a longest common subsequence. *)
Fixpoint lcs_length (a b : string) : nat :=
  match a with
  | "" => 0
  | String x a' =>
      (fix row (b : string) : nat :=
         match b with
         | "" => 0
         | String y b' =>
             if Ascii.eqb x y then S (lcs_length a' b')
             else Nat.max (lcs_length a' b) (row b')
         end) b
  end.

(** The number of single-character insertions and deletions that turn [a]
    into [b]. *)
Definition indel_distance (a b : string) : nat :=
  String.length a + String.length b - 2 * lcs_length a b.

(** [100 - 100 * dist / lensum], and 100 when both strings are empty. *)
Definition norm_distance (dist lensum : nat) : Q :=
  match lensum with
  | O => 100%Q
  | _ => (100 - 100 * inject_Z (Z.of_nat dist) / inject_Z (Z.of_nat lensum))%Q
  end.

Definition nonzero (n : nat) : nat := if n =? 0 then 0 else 1.

(** [max(x, y)] on floats: [y] wins only when strictly greater. *)
Definition max2 (x y : Q) : Q := if Qle_bool y x then x else y.

(** Modelled from the spec: [fuzz.token_set_ratio] comes from the
    third-party package rapidfuzz, which is not among the sources.  Section
    4.2 describes it as the token-set overlap ratio: each string becomes the
    set of its whitespace-delimited tokens ([split], with the library's own
    notion of whitespace); the sorted intersection and the
    two sorted set differences are rebuilt into strings; the scaled
    edit-distance ratio (insertions and deletions, 0..100) is taken between
    the reconstructions, and the maximum is returned.  The definition
    follows the library: a string without tokens scores 0, and a token set
    contained in the other scores 100. *)
Definition token_set_ratio (s1 s2 : string) : Q :=
  let tokens_a : gset string := list_to_set (split s1) in
  let tokens_b : gset string := list_to_set (split s2) in
  if bool_decide (tokens_a = ∅) || bool_decide (tokens_b = ∅) then 0%Q
  else
    let intersect := tokens_a ∩ tokens_b in
    let diff_ab := tokens_a ∖ tokens_b in
    let diff_ba := tokens_b ∖ tokens_a in
    if bool_decide (intersect ≠ ∅) &&
       (bool_decide (diff_ab = ∅) || bool_decide (diff_ba = ∅))
    then 100%Q
    else
      let diff_ab_joined := join (sorted diff_ab) in
      let diff_ba_joined := join (sorted diff_ba) in
      let ab_len := String.length diff_ab_joined in
      let ba_len := String.length diff_ba_joined in
      let sect_len := String.length (join (sorted intersect)) in
      let sect_ab_len := sect_len + nonzero sect_len + ab_len in
      let sect_ba_len := sect_len + nonzero sect_len + ba_len in
      let dist := indel_distance diff_ab_joined diff_ba_joined in
      let result := norm_distance dist (sect_ab_len + sect_ba_len) in
      if sect_len =? 0 then result
      else
        let sect_ab_ratio :=
          norm_distance (nonzero sect_len + ab_len) (sect_len + sect_ab_len) in
        let sect_ba_ratio :=
          norm_distance (nonzero sect_len + ba_len) (sect_len + sect_ba_len) in
        max2 (max2 result sect_ab_ratio) sect_ba_ratio.

End Rapidfuzz.

(* ===================================================================== *)
(** * src/main.py: export_csv                                             *)
(* ===================================================================== *)

(** Round to the nearest integer, ties to even, as float formatting does. *)
Definition round_half_even (x : Q) : Z :=
  let f := Qfloor x in
  match (x - inject_Z f ?= 1 # 2)%Q with
  | Lt => f
  | Gt => (f + 1)%Z
  | Eq => if Z.even f then f else (f + 1)%Z
  end.

Definition digit_char (n : Z) : ascii := ascii_of_N (48 + Z.to_N n).

(** The last [d] decimal digits of [n], zero-padded on the left. *)
Fixpoint digits (d : nat) (n : Z) : string :=
  match d with
  | O => ""
  | S d' => digits d' (n / 10)%Z +:+ String (digit_char (n mod 10)%Z) ""
  end.

(** Decimal notation of a natural number: at least one digit. *)
Definition decimal (n : Z) : string :=
  NilZero.string_of_uint (N.to_uint (Z.to_N n)).

(** [f"{x:.<d>f}"] for a finite [x]. *)
Definition format_fixed (d : nat) (x : Q) : string :=
  let scale := (10 ^ Z.of_nat d)%Z in
  let scaled := round_half_even (Qabs x * inject_Z scale)%Q in
  (if Qlt_le_dec x 0 then "-" else "") +:+
  decimal (scaled / scale)%Z +:+
  match d with
  | O => ""
  | _ => "." +:+ digits d (scaled mod scale)%Z
  end.

(** The state of [csv.writer(f)]: the rows written so far. *)
Definition csv_writer : Type := list (list string).

Definition writerow (w : csv_writer) (row : list string) : csv_writer :=
  w ++ [row].

Definition header : list string :=
  ["unified_title"; "site"; "site_product_id"; "price"; "confidence"].

Definition member_row (up : UnifiedProduct) (member : SiteMarket) (conf : Q)
  : list string :=
  [ unified_title up;
    site member;
    id member;
    match price member with
    | None => ""
    | Some p => format_fixed 4 p
    end;
    format_fixed 3 conf ].

(** The rows handed to the writer, the header first.  Creating the directory
    and opening the file are outside the model. *)
Definition export_csv (unified : list UnifiedProduct) : csv_writer :=
  let w := writerow [] header in
  fold_left
    (λ w up,
       fold_left
         (λ w mc, writerow w (member_row up mc.1 mc.2))
         (PyStr.zip (members up) (confidence_scores up)) w)
    unified w.

(** The data rows: everything after the header. *)
Definition data_rows (unified : list UnifiedProduct) : list (list string) :=
  tail (export_csv unified).

(* ===================================================================== *)
(** * The design document's reference definitions                         *)
(* ===================================================================== *)

Module Spec.

(** Section 4.1: the characters [? ! , . : ; ( ) [ ]]. *)
Definition is_punctuation (c : ascii) : bool :=
  match c with
  | "?" | "!" | "," | "." | ":" | ";" | "(" | ")" | "[" | "]" => true
  | _ => false
  end%char.

(** Replace each punctuation character with a single space. *)
Fixpoint replace_punctuation (s : string) : string :=
  match s with
  | "" => ""
  | String c s' =>
      String (if is_punctuation c then " "%char else c) (replace_punctuation s')
  end.

(** Collapse every run of two or more spaces to exactly one space: a space
    that is followed by a space is dropped. *)
Fixpoint squeeze (s : string) : string :=
  match s with
  | "" => ""
  | String c s' =>
      if Ascii.eqb " " c && PyStr.startswith s' " " then squeeze s'
      else String c (squeeze s')
  end.

(** Section 4.1: the reference pipeline. *)
Definition normalize (title : string) : string :=
  squeeze (replace_punctuation (PyStr.strip (PyStr.lower title))).

(** Section 3: a cluster is its first (oldest) member, which defines the
    centroid, and the members that joined later with their scores. *)
Record Cluster : Type := {
  founder : SiteMarket;
  joined : list (SiteMarket * Q);
}.

Definition centroid_title (c : Cluster) : string := title (founder c).

(** The ordered (record, membership score) pairs of a cluster. *)
Definition entries (c : Cluster) : list (SiteMarket * Q) :=
  (founder c, 1%Q) :: joined c.

Definition score (sim : string → string → Q) (record : SiteMarket)
    (c : Cluster) : Q :=
  sim (title record) (centroid_title c).

(** Section 4.3, one record: it joins the first cluster, in creation order,
    whose centroid clears the threshold; otherwise it founds a new one. *)
Definition assign (sim : string → string → Q) (threshold : Q)
    (clusters : list Cluster) (record : SiteMarket) : list Cluster :=
  match list_find (λ c, Qle_bool threshold (score sim record c) = true)
                  clusters with
  | Some (i, c) =>
      <[i := {| founder := founder c;
                joined := joined c ++ [(record, score sim record c)] |}]>
        clusters
  | None => clusters ++ [{| founder := record; joined := [] |}]
  end.

(** Section 4.3: a single left-to-right pass over the records. *)
Definition clusters (sim : string → string → Q)
    (records : list SiteMarket) (threshold : Q) : list Cluster :=
  fold_left (assign sim threshold) records [].

Definition member_list (c : Cluster) : list SiteMarket := fst <$> entries c.

(** Section 4.4: the first raw title, in member order, whose length is the
    maximum over the members. *)
Definition longest_title (c : Cluster) : string :=
  let titles := title <$> member_list c in
  let longest := foldr Nat.max 0 (String.length <$> titles) in
  match list_find (λ t, String.length t = longest) titles with
  | Some (_, t) => t
  | None => ""
  end.

Definition product (c : Cluster) : UnifiedProduct :=
  {| unified_title := longest_title c;
     members := member_list c;
     confidence_scores := snd <$> entries c |}.

(** Section 4.3 contract: [cluster(records, threshold)]. *)
Definition cluster (sim : string → string → Q)
    (records : list SiteMarket) (threshold : Q) : list UnifiedProduct :=
  product <$> clusters sim records threshold.

End Spec.

(* ===================================================================== *)
(** * Auxiliary notions and sample data                                   *)
(* ===================================================================== *)

(** Invariant of the clustering pass: a member that joined a cluster is
    stored with its similarity to the centroid, and that similarity clears
    the threshold. *)
Definition joined_ok (sim : string → string → Q) (threshold : Q)
    (c : Spec.Cluster) : Prop :=
  Forall (λ e : SiteMarket * Q,
            e.2 = sim (title e.1) (Spec.centroid_title c) ∧
            (threshold <= e.2)%Q)
         (Spec.joined c).

(** The rows [export_csv] writes for one product. *)
Definition product_rows (up : UnifiedProduct) : list (list string) :=
  (λ mc, member_row up mc.1 mc.2)
    <$> PyStr.zip (members up) (confidence_scores up).

Definition market (site id title : string) : SiteMarket :=
  {| site := site; id := id; title := title;
     price := None; url := None; additional := ∅ |}.

Definition market_x : SiteMarket := market "polymarket" "p1" "x".
Definition market_y : SiteMarket := market "manifold" "m1" "y".
Definition market_xy : SiteMarket := market "predictit" "i1" "x y".

Definition market_ac : SiteMarket := market "polymarket" "p2" "a c".
Definition market_b : SiteMarket := market "manifold" "m2" "b".
Definition market_ab : SiteMarket := market "predictit" "i2" "a b".

(** The first example of section 8 of the design document. *)
Definition election_markets : list SiteMarket :=
  [ market "polymarket" "p3"
      "Will Donald Trump win the 2024 US Presidential Election?";
    market "manifold" "m3" "Trump wins 2024 presidential election";
    market "predictit" "i3"
      "Who will win the 2024 US Presidential Election?" ].

(** A product whose two lists are not aligned: one member, no score. *)
Definition product_without_scores : UnifiedProduct :=
  {| unified_title := "x"; members := [market_x]; confidence_scores := [] |}.

(* ===================================================================== *)
(** * src/agents.py [run_pipeline] and src/main.py [run_local_mode]       *)
(* ===================================================================== *)

(** [run_pipeline(collected)]: clustering with the default threshold. *)
Definition run_pipeline (token_set_ratio : scorer)
    (collected : list SiteMarket) : result (list UnifiedProduct) :=
  cluster_markets token_set_ratio collected default_threshold.

(** The CSV side of [run_local_mode], from the collected markets on: nothing
    is written when no market was collected, otherwise the unified products
    are exported.  Logging, metrics and the RAG step are left out. *)
Definition run_local_mode_csv (token_set_ratio : scorer)
    (collected : list SiteMarket) : result (option csv_writer) :=
  match collected with
  | [] => ok None
  | _ =>
      unified ← run_pipeline token_set_ratio collected;
      ok (Some (export_csv unified))
  end.

(* ===================================================================== *)
(** * src/config.py                                                       *)
(* ===================================================================== *)

(** [os.getenv(key)] on the process environment. *)
Definition getenv (env : gmap string string) (key : string) : option string :=
  env !! key.

(** Truth value of an [Optional[str]]: [None] and [""] are false. *)
Definition truthy (v : option string) : bool :=
  match v with
  | Some (String _ _) => true
  | _ => false
  end.

(** [a or b] *)
Definition py_or (a b : option string) : option string :=
  if truthy a then a else b.

Definition get_litellm_model (env : gmap string string) : string :=
  let model := default "groq/llama3-70b-8192" (getenv env "LITELLM_MODEL") in
  if truthy (getenv env "GROQ_API_KEY")
     && negb (PyStr.startswith model "groq/")
  then "groq/" +:+ model
  else model.

Definition get_litellm_api_key (env : gmap string string) : option string :=
  py_or (py_or (getenv env "LITELLM_API_KEY") (getenv env "GROQ_API_KEY"))
        (getenv env "OPENAI_API_KEY").

Definition get_proxy (env : gmap string string) : option string :=
  py_or (getenv env "HTTPS_PROXY") (getenv env "HTTP_PROXY").

(* ===================================================================== *)
(** * src/logging_config.py: MetricsTracker                               *)
(* ===================================================================== *)

(** The exceptions the tracker can raise. *)
Inductive py_raise : Set :=
| KeyError
| AttributeError
| TypeError.

Definition outcome (A : Type) : Type := py_raise + A.

#[global] Instance outcome_ret : MRet outcome := λ A x, inr x.

#[global] Instance outcome_bind : MBind outcome := λ A B k r,
  match r with
  | inl e => inl e
  | inr x => k x
  end.

(** A caught exception: [type(error).__name__] and [str(error)]. *)
Record py_exception : Type := {
  exception_type : string;
  exception_message : string;
}.

(** The dictionary stored for one error. *)
Record error_info : Type := {
  timestamp : string;
  error_type : string;
  error_message : string;
  context : string;
}.

(** The values a metric can hold. *)
#[local] Set Warnings "-register-all".
Inductive metric_value : Type :=
| MInt (n : Z)
| MFloat (x : Q)
| MStr (s : string)
| MErrorInfo (e : error_info)
| MList (l : list metric_value).
#[local] Set Warnings "register-all".

(** [MetricsTracker().metrics] *)
Definition metrics_init : gmap string metric_value :=
  {[ "markets_collected" := MInt 0;
     "sites_scraped" := MInt 0;
     "errors" := MList [];
     "processing_time" := MInt 0;
     "unified_products" := MInt 0 ]}.

(** [log_error(error, context)]; [now] is [datetime.now().isoformat()]. *)
Definition log_error (metrics : gmap string metric_value)
    (error : py_exception) (context now : string)
  : outcome (gmap string metric_value) :=
  let info := {| timestamp := now;
                 error_type := exception_type error;
                 error_message := exception_message error;
                 context := context |} in
  match metrics !! "errors" with
  | None => inl KeyError
  | Some (MList l) =>
      inr (<["errors" := MList (l ++ [MErrorInfo info])]> metrics)
  | Some _ => inl AttributeError
  end.

Definition log_metric (metrics : gmap string metric_value)
    (metric : string) (value : metric_value) : gmap string metric_value :=
  match metrics !! metric with
  | None => metrics
  | Some (MList l) => <[metric := MList (l ++ [value])]> metrics
  | Some _ => <[metric := value]> metrics
  end.

(** [self.metrics[key]] *)
Definition metric_item (metrics : gmap string metric_value) (key : string)
  : outcome metric_value :=
  match metrics !! key with
  | Some v => inr v
  | None => inl KeyError
  end.

(** [len(v)] *)
Definition metric_len (v : metric_value) : outcome nat :=
  match v with
  | MList l => inr (length l)
  | MStr s => inr (String.length s)
  | MErrorInfo _ => inr 4
  | MInt _ | MFloat _ => inl TypeError
  end.

Record metrics_summary : Type := {
  total_markets : metric_value;
  sites_scraped : metric_value;
  unified_products : metric_value;
  error_count : nat;
  processing_time_seconds : metric_value;
}.

Definition get_summary (metrics : gmap string metric_value)
  : outcome metrics_summary :=
  markets ← metric_item metrics "markets_collected";
  sites ← metric_item metrics "sites_scraped";
  unified ← metric_item metrics "unified_products";
  errors ← metric_item metrics "errors";
  count ← metric_len errors;
  time ← metric_item metrics "processing_time";
  mret {| total_markets := markets;
          sites_scraped := sites;
          unified_products := unified;
          error_count := count;
          processing_time_seconds := time |}.

(** One call on a tracker. *)
Inductive tracker_call : Type :=
| LogMetric (metric : string) (value : metric_value)
| LogError (error : py_exception) (context now : string).

Definition tracker_step (metrics : gmap string metric_value)
    (call : tracker_call) : outcome (gmap string metric_value) :=
  match call with
  | LogMetric metric value => inr (log_metric metrics metric value)
  | LogError error context now => log_error metrics error context now
  end.

(** A sequence of calls, stopping at the first exception. *)
Fixpoint tracker_run (calls : list tracker_call)
    (metrics : gmap string metric_value)
  : outcome (gmap string metric_value) :=
  match calls with
  | [] => inr metrics
  | call :: calls' =>
      metrics' ← tracker_step metrics call; tracker_run calls' metrics'
  end.

(* ===================================================================== *)
(** * src/main.py: collect_all                                            *)
(* ===================================================================== *)

(** What one site fetcher did: it raised, or it returned its markets. *)
Definition fetch_outcome : Type := py_exception + list SiteMarket.

(** [collect_all], given the outcomes of the three fetchers and the clock
    readings for the errors; logger calls are left out. *)
Definition collect_all (polymarket manifold predictit : fetch_outcome)
    (now1 now2 now3 : string) (metrics : gmap string metric_value)
  : outcome (list SiteMarket * gmap string metric_value) :=
  let markets : list SiteMarket := [] in
  '(markets, metrics) ←
    match polymarket with
    | inr polymarket_markets =>
        inr (markets ++ polymarket_markets,
             log_metric metrics "sites_scraped" (MStr "polymarket"))
    | inl e =>
        metrics ← log_error metrics e "polymarket_scraping" now1;
        inr (markets, metrics)
    end;
  '(markets, metrics) ←
    match manifold with
    | inr manifold_markets =>
        inr (markets ++ manifold_markets,
             log_metric metrics "sites_scraped" (MStr "manifold"))
    | inl e =>
        metrics ← log_error metrics e "manifold_scraping" now2;
        inr (markets, metrics)
    end;
  '(markets, metrics) ←
    match predictit with
    | inr predictit_markets =>
        inr (markets ++ predictit_markets,
             log_metric metrics "sites_scraped" (MStr "predictit"))
    | inl e =>
        metrics ← log_error metrics e "predictit_scraping" now3;
        inr (markets, metrics)
    end;
  inr (markets,
       log_metric metrics "markets_collected"
         (MInt (Z.of_nat (length markets)))).

(* ===================================================================== *)
(** * src/rag_system.py: ProductRAG                                       *)
(* ===================================================================== *)

(** The dict that [add_products] stores for a product; a member is the
    dict of a [SiteMarket], which has the fields of the record. *)
Module StoredProduct.

Record t : Type := {
  unified_title : string;
  members : list SiteMarket;
  confidence_scores : list Q;
  text : string;
}.

End StoredProduct.

Module ProductRAG.

(** The sentence-embedding model and numpy are third-party code: the class
    is modelled over the type [V] of the vectors, an arbitrary [encode]
    ([self.model.encode]) and an arbitrary [cosine] (the dot product
    divided by the product of the norms), a float that is not nan.  The
    cache file is outside the model: a state is the pair of lists that
    [__init__] ends with, and [_save_embeddings] changes neither. *)
Record state (V : Type) : Type := {
  embeddings : list V;
  products : list StoredProduct.t;
}.

Arguments embeddings {V} _.
Arguments products {V} _.

(** The state of [__init__] when there is no cache file. *)
Definition init {V} : state V := {| embeddings := []; products := [] |}.

(** [sep.join(parts)] *)
Definition join (sep : string) (parts : list string) : string :=
  match parts with
  | [] => ""
  | part :: parts' => fold_left (λ acc p, acc +:+ sep +:+ p) parts' part
  end.

Definition _create_product_text (product : UnifiedProduct) : string :=
  let text_parts := ["Product: " +:+ unified_title product] in
  let text_parts :=
    fold_left
      (λ text_parts mc,
         let member := mc.1 in
         let confidence := mc.2 in
         let text_parts :=
           text_parts
           ++ ["Available on " +:+ site member +:+ ": " +:+ title member] in
         let text_parts :=
           match price member with
           | Some p => text_parts ++ ["Price: " +:+ format_fixed 4 p]
           | None => text_parts
           end in
         text_parts ++ ["Confidence: " +:+ format_fixed 3 confidence])
      (PyStr.zip (members product) (confidence_scores product))
      text_parts in
  join " | " text_parts.

Definition add_products {V} (encode : string → V) (self : state V)
    (unified_products : list UnifiedProduct) : state V :=
  fold_left
    (λ self product,
       let product_text := _create_product_text product in
       let embedding := encode product_text in
       {| products :=
            products self
            ++ [{| StoredProduct.unified_title := unified_title product;
                   StoredProduct.members := members product;
                   StoredProduct.confidence_scores :=
                     confidence_scores product;
                   StoredProduct.text := product_text |}];
          embeddings := embeddings self ++ [embedding] |})
    unified_products self.

(** [a < b] on tuples [(similarity, index)]: the first components that
    differ decide. *)
Definition tuple_lt (a b : Q * nat) : bool :=
  if Qeq_bool a.1 b.1 then a.2 <? b.2 else negb (Qle_bool b.1 a.1).

(** [a] may stand before [b] in an ascending sort. *)
Definition tuple_le : relation (Q * nat) := λ a b, tuple_lt b a = false.

#[global] Instance tuple_le_dec a b : Decision (tuple_le a b).
Proof. unfold tuple_le. apply _. Defined.

(** [l.sort(reverse=True)]: the list is reversed, sorted upwards and
    reversed again.  The tuples are pairwise different in their indices,
    so the outcome does not depend on the sorting algorithm. *)
Definition sort_reverse (l : list (Q * nat)) : list (Q * nat) :=
  reverse (merge_sort tuple_le (reverse l)).

(** [l[:stop]]: a negative [stop] counts from the end. *)
Definition slice_to {A} (l : list A) (stop : Z) : list A :=
  if (0 <=? stop)%Z then take (Z.to_nat stop) l
  else take (length l - Z.to_nat (- stop)) l.

(** A search result: a copy of the stored dict with the key
    ["similarity_score"] added. *)
Record search_result : Type := {
  product : StoredProduct.t;
  similarity_score : Q;
}.

Definition similarities {V} (encode : string → V) (cosine : V → V → Q)
    (self : state V) (query : string) : list (Q * nat) :=
  let query_embedding := encode query in
  imap (λ i embedding, (cosine query_embedding embedding, i))
    (embeddings self).

Definition search_products {V} (encode : string → V) (cosine : V → V → Q)
    (self : state V) (query : string) (top_k : Z)
  : result (list search_result) :=
  match embeddings self with
  | [] => ok []
  | _ =>
      let similarities :=
        sort_reverse (similarities encode cosine self query) in
      map_result
        (λ si,
           match products self !! si.2 with
           | Some product =>
               ok {| product := product; similarity_score := si.1 |}
           | None => raise IndexError
           end)
        (slice_to similarities top_k)
  end.

(** [np.mean] of floats of which some may be nan: [None] stands for nan,
    which is the mean of no number and of numbers one of which is nan. *)
Definition mean (xs : list (option Q)) : option Q :=
  match xs with
  | [] => None
  | _ =>
      values ← mapM (λ x, x) xs;
      Some (Qsum values / inject_Z (Z.of_nat (length values)))%Q
  end.

(** The dict of [get_product_stats]: one key for an empty store, four
    otherwise.  [list(sites)] has the order of a Python set, which is not
    determined: the sites are kept as the set. *)
Inductive product_stats : Type :=
| NoProducts
| Stats (total_products total_markets : nat) (sites_covered : gset string)
    (average_confidence : option Q).

Definition get_product_stats {V} (self : state V) : product_stats :=
  match products self with
  | [] => NoProducts
  | _ =>
      let total_markets :=
        sum_list ((λ p, length (StoredProduct.members p)) <$> products self) in
      let sites : gset string :=
        fold_left
          (λ sites product,
             fold_left (λ sites member, sites ∪ {[site member]})
               (StoredProduct.members product) sites)
          (products self) ∅ in
      let avg_confidence :=
        mean ((λ p, mean (Some <$> StoredProduct.confidence_scores p))
                <$> products self) in
      Stats (length (products self)) total_markets sites avg_confidence
  end.

End ProductRAG.

(* ===================================================================== *)
(** * Auxiliary notions for the tracker and the collector                 *)
(* ===================================================================== *)

(** Invariant of the first-fit pass: a member of a cluster scores below the
    threshold against the centroid of every earlier cluster. *)
Definition earlier_rejected (sim : string → string → Q) (threshold : Q)
    (scs : list Spec.Cluster) : Prop :=
  ∀ i j ci cj x,
    i < j → scs !! i = Some ci → scs !! j = Some cj →
    x ∈ Spec.member_list cj →
    (Spec.score sim x ci < threshold)%Q.

(** Whether a call appends to the list under ["errors"]. *)
Definition appends_error (call : tracker_call) : bool :=
  match call with
  | LogError _ _ _ => true
  | LogMetric metric _ => bool_decide (metric = "errors")
  end.

Definition errors_appended (calls : list tracker_call) : nat :=
  length (filter (λ call, appends_error call = true) calls).

(** The markets a fetcher contributed, and whether it failed. *)
Definition fetched (o : fetch_outcome) : list SiteMarket :=
  match o with
  | inr site_markets => site_markets
  | inl _ => []
  end.

Definition failed (o : fetch_outcome) : bool :=
  match o with
  | inr _ => false
  | inl _ => true
  end.


(** What every reachable tracker satisfies: the five keys of [__init__]
    and no other, and a list of [n] entries under ["errors"]. *)
Definition tracker_ok (n : nat) (metrics : gmap string metric_value) : Prop :=
  (∀ key, is_Some (metrics !! key) ↔ is_Some (metrics_init !! key)) ∧
  ∃ l, metrics !! "errors" = Some (MList l) ∧ length l = n.

(** The tracker while [collect_all] runs: the value under "sites_scraped"
    is not a list, [errs] are the errors so far, and the other three
    metrics are untouched. *)
Definition collecting (metrics : gmap string metric_value)
    (sites : metric_value) (errs : list metric_value) : Prop :=
  metrics !! "errors" = Some (MList errs) ∧
  metrics !! "sites_scraped" = Some sites ∧
  (∀ l, sites ≠ MList l) ∧
  metrics !! "markets_collected" = Some (MInt 0) ∧
  metrics !! "unified_products" = Some (MInt 0) ∧
  metrics !! "processing_time" = Some (MInt 0).

(** The store pairs every product with the embedding of its text. *)
Definition rag_consistent {V} (encode : string → V)
    (self : ProductRAG.state V) : Prop :=
  Forall2 (λ embedding product,
             embedding = encode (StoredProduct.text product))
    (ProductRAG.embeddings self) (ProductRAG.products self).

(** The dict under which [add_products] stores a product. *)
Definition stored_product (product : UnifiedProduct) : StoredProduct.t :=
  {| StoredProduct.unified_title := unified_title product;
     StoredProduct.members := members product;
     StoredProduct.confidence_scores := confidence_scores product;
     StoredProduct.text := ProductRAG._create_product_text product |}.

(** A stand-in for the embedding model: a text is embedded as its length,
    and two embeddings are the closer the less they differ. *)
Definition length_encode (text : string) : nat := String.length text.

Definition length_cosine (a b : nat) : Q :=
  (1 # Pos.of_nat (S (Nat.max a b - Nat.min a b)))%Q.

Definition product_xy : UnifiedProduct :=
  {| unified_title := "x y";
     members := [market_x; market_xy];
     confidence_scores := [1%Q; (1 # 2)%Q] |}.

Definition product_b : UnifiedProduct :=
  {| unified_title := "b";
     members := [market_b];
     confidence_scores := [1%Q] |}.

(** The store after [add_products([product_xy, product_b])] on a new
    [ProductRAG] without a cache file. *)
Definition store_xy_b : ProductRAG.state nat :=
  ProductRAG.add_products length_encode ProductRAG.init
    [product_xy; product_b].

(** A store as a damaged cache file gives it: embeddings without
    products. *)
Definition store_damaged : ProductRAG.state nat :=
  {| ProductRAG.embeddings := [3; 5]; ProductRAG.products := [] |}.

(* ===================================================================== *)
(** * Properties of normalize_title                                       *)
(* ===================================================================== *)

Section Normalizer.

Lemma replace1_cons ch new c s :
  PyStr.replace (String ch "") new (String c s)
  = if Ascii.eqb ch c
    then new +:+ PyStr.replace (String ch "") new s
    else String c (PyStr.replace (String ch "") new s).
Proof.
  unfold PyStr.replace. cbn. by destruct (Ascii.eqb ch c).
Qed.

(** The ten single-character replacements amount to one pass that maps
    every punctuation character to a space. *)
Lemma punctuation_pass s :
  fold_left (λ t ch, PyStr.replace ch " " t) punctuation s
  = Spec.replace_punctuation s.
Proof.
  induction s as [|c s IHs]; [reflexivity|].
  cbn [Spec.replace_punctuation]. rewrite <- IHs. clear IHs.
  destruct c as [[] [] [] [] [] [] [] []]; reflexivity.
Qed.

Lemma startswith_replace2 s :
  PyStr.startswith (PyStr.replace "  " " " s) " " = PyStr.startswith s " ".
Proof.
  destruct s as [|c s]; [done|].
  destruct (prefix2_cases c s) as [[-> [r ->]]|Hno].
  - by rewrite replace2_pair.
  - by rewrite (replace2_other _ _ Hno).
Qed.

(** One pass of [replace("  ", " ")] leaves the squeezed string unchanged. *)
Lemma squeeze_replace2 s :
  Spec.squeeze (PyStr.replace "  " " " s) = Spec.squeeze s.
Proof.
  induction s as [|c|c d s IHs IHd] using string_pair_ind; [done| |].
  { rewrite replace2_other; [done|]. cbn. by destruct (Ascii.eqb " " c). }
  destruct (prefix2_cases c (String d s)) as [[-> [r [= -> ->]]]|Hno].
  - rewrite replace2_pair. cbn [Spec.squeeze].
    rewrite startswith_replace2, IHs. reflexivity.
  - rewrite (replace2_other _ _ Hno). cbn [Spec.squeeze].
    rewrite startswith_replace2, IHd. reflexivity.
Qed.

Lemma squeeze_fixed s :
  PyStr.contains "  " s = false → Spec.squeeze s = s.
Proof.
  induction s as [|c s IHs]; [done|].
  cbn [PyStr.contains]. intros [Hhd Htl]%orb_false_iff.
  cbn [Spec.squeeze]. rewrite (IHs Htl).
  change (PyStr.startswith (String c s) "  ")
    with (Ascii.eqb " " c && PyStr.startswith s " ") in Hhd.
  by rewrite Hhd.
Qed.

Lemma collapse_loop_squeeze t : collapse_loop t = Spec.squeeze t.
Proof.
  funelim (collapse_loop t).
  - match goal with
    | IH : collapse_loop _ = Spec.squeeze _ |- _ =>
        change (PyStr.replace_go "  " " " 0 t)
          with (PyStr.replace "  " " " t) in IH; rewrite IH
    end.
    apply squeeze_replace2.
  - symmetry. apply squeeze_fixed. by destruct (PyStr.contains "  " t).
Qed.

(** The loop stops only when no two adjacent spaces remain. *)
Lemma collapse_loop_no_double_space t :
  PyStr.contains "  " (collapse_loop t) = false.
Proof.
  funelim (collapse_loop t).
  - match goal with
    | IH : PyStr.contains _ (collapse_loop _) = false |- _ =>
        change (PyStr.replace_go "  " " " 0 t)
          with (PyStr.replace "  " " " t) in IH
    end.
    congruence.
  - by destruct (PyStr.contains "  " t).
Qed.

(** C8: [normalize_title] is total and equals the reference pipeline
    (lower-case, strip, punctuation to spaces, runs of spaces collapsed);
    its result contains no two adjacent spaces, and the empty string maps
    to the empty string. *)
Theorem normalize_title_reference :
  (∀ title, normalize_title title = Spec.normalize title) ∧
  (∀ title, PyStr.contains "  " (normalize_title title) = false) ∧
  normalize_title "" = "".
Proof.
  split_and!; [|intros; apply collapse_loop_no_double_space|reflexivity].
  intros title. unfold normalize_title, Spec.normalize.
  by rewrite collapse_loop_squeeze, punctuation_pass.
Qed.

End Normalizer.

(* ===================================================================== *)
(** * Properties of the Python primitives                                 *)
(* ===================================================================== *)

Section MaxBy.

Context {A : Type} (key : A → nat).

Lemma fold_keep_first_max (xs : list A) : ∀ (pre : list A) best i,
  pre !! i = Some best →
  (∀ z, z ∈ pre → key z ≤ key best) →
  (∀ j z, j < i → pre !! j = Some z → key z < key best) →
  ∃ i',
    let y := fold_left (λ best y, if key best <? key y then y else best)
                       xs best in
    (pre ++ xs) !! i' = Some y ∧
    (∀ z, z ∈ pre ++ xs → key z ≤ key y) ∧
    (∀ j z, j < i' → (pre ++ xs) !! j = Some z → key z < key y).
Proof.
  induction xs as [|x xs IH]; intros pre best i Hi Hmax Hfirst.
  - exists i. rewrite app_nil_r. cbn. auto.
  - cbn [fold_left]. rewrite cons_middle, app_assoc.
    destruct (Nat.ltb_spec (key best) (key x)) as [Hlt|Hge].
    + apply (IH (pre ++ [x]) x (length pre)).
      * by rewrite list_lookup_middle.
      * intros z [Hz| ->%list_elem_of_singleton]%elem_of_app; [|lia].
        specialize (Hmax z Hz). lia.
      * intros j z Hj Hz. rewrite lookup_app_l in Hz by done.
        apply list_elem_of_lookup_2, Hmax in Hz. lia.
    + apply (IH (pre ++ [x]) best i).
      * by apply lookup_app_l_Some.
      * intros z [Hz| ->%list_elem_of_singleton]%elem_of_app; [auto|lia].
      * intros j z Hj Hz. apply (Hfirst j z Hj).
        apply lookup_lt_Some in Hi.
        by rewrite lookup_app_l in Hz by lia.
Qed.

(** [max(xs, key=key)] on a non-empty list returns the first element with
    the greatest key. *)
Lemma max_by_cons (x : A) (xs : list A) :
  ∃ i y,
    PyStr.max_by key (x :: xs) = ok y ∧
    (x :: xs) !! i = Some y ∧
    (∀ z, z ∈ x :: xs → key z ≤ key y) ∧
    (∀ j z, j < i → (x :: xs) !! j = Some z → key z < key y).
Proof.
  destruct (fold_keep_first_max xs [x] x 0) as (i & Hi & Hmax & Hfirst).
  - reflexivity.
  - by intros z ->%list_elem_of_singleton.
  - intros; lia.
  - exists i. eexists. split; [reflexivity|]. eauto.
Qed.

Lemma foldr_max_upper (l : list A) z :
  z ∈ l → key z ≤ foldr Nat.max 0 (key <$> l).
Proof.
  induction 1 as [|? ? ? ? IH]; cbn; [lia|].
  etrans; [apply IH|]. lia.
Qed.

Lemma foldr_max_least (l : list A) k :
  (∀ z, z ∈ l → key z ≤ k) → foldr Nat.max 0 (key <$> l) ≤ k.
Proof.
  induction l as [|x l IH]; intros Hk; cbn; [lia|].
  apply Nat.max_lub; [apply Hk; left|apply IH].
  intros z Hz. apply Hk. by right.
Qed.

Lemma list_find_first_max (l : list A) i y :
  l !! i = Some y →
  (∀ z, z ∈ l → key z ≤ key y) →
  (∀ j z, j < i → l !! j = Some z → key z < key y) →
  list_find (λ t, key t = foldr Nat.max 0 (key <$> l)) l = Some (i, y).
Proof.
  intros Hi Hmax Hfirst.
  assert (Hk : foldr Nat.max 0 (key <$> l) = key y).
  { apply Nat.le_antisymm; [by apply foldr_max_least|].
    by eapply foldr_max_upper, list_elem_of_lookup_2. }
  apply list_find_Some. rewrite Hk. split_and!; [done|done|].
  intros j z Hz Hj. specialize (Hfirst j z Hj Hz). lia.
Qed.

End MaxBy.

(* ===================================================================== *)
(** * Properties of cluster_markets, for an arbitrary scorer              *)
(* ===================================================================== *)

Section Clustering.

Variable token_set_ratio : scorer.

Local Notation "'sim'" := (similarity token_set_ratio).

Lemma bind_ok {A B} (x : A) (k : A → result B) : (ok x ≫= k) = k x.
Proof. reflexivity. Qed.

(** The inner loop finds the first qualifying cluster, if any. *)
Lemma place_entries m threshold (scs : list Spec.Cluster) :
  place token_set_ratio m threshold (Spec.entries <$> scs)
  = ok match list_find
             (λ c, Qle_bool threshold (Spec.score sim m c) = true) scs with
       | Some (i, c) =>
           (Spec.entries <$>
              <[i := {| Spec.founder := Spec.founder c;
                        Spec.joined :=
                          Spec.joined c ++ [(m, Spec.score sim m c)] |}]> scs,
            true)
       | None => (Spec.entries <$> scs, false)
       end.
Proof.
  induction scs as [|c scs IH]; [reflexivity|].
  cbn [fmap list_fmap place Spec.entries PyStr.first]. rewrite bind_ok.
  cbn [list_find]. fold (Spec.entries c).
  change (similarity token_set_ratio (title m) (title (Spec.founder c, 1%Q).1))
    with (Spec.score sim m c).
  destruct (decide (Qle_bool threshold (Spec.score sim m c) = true))
    as [Hq|Hq].
  - rewrite Hq. reflexivity.
  - apply not_true_is_false in Hq. rewrite Hq.
    change (list_fmap _ _ Spec.entries scs) with (Spec.entries <$> scs).
    rewrite IH. destruct (list_find _ scs) as [[i c']|]; reflexivity.
Qed.

Lemma add_market_assign m threshold (scs : list Spec.Cluster) :
  add_market token_set_ratio threshold (Spec.entries <$> scs) m
  = ok (Spec.entries <$> Spec.assign sim threshold scs m).
Proof.
  unfold add_market, Spec.assign. rewrite place_entries, bind_ok.
  destruct (list_find _ scs) as [[i c]|]; [reflexivity|].
  by rewrite fmap_app.
Qed.

Lemma for_each_assign markets threshold (scs : list Spec.Cluster) :
  for_each (add_market token_set_ratio threshold) markets
           (Spec.entries <$> scs)
  = ok (Spec.entries <$> fold_left (Spec.assign sim threshold) markets scs).
Proof.
  revert scs. induction markets as [|m markets IH]; intros scs;
    [reflexivity|].
  cbn [for_each fold_left]. by rewrite add_market_assign, bind_ok, IH.
Qed.

Lemma form_clusters_reference markets threshold :
  form_clusters token_set_ratio markets threshold
  = ok (Spec.entries <$> Spec.clusters sim markets threshold).
Proof. apply (for_each_assign markets threshold []). Qed.

Lemma build_entries (c : Spec.Cluster) :
  build (Spec.entries c) = ok (Spec.product c).
Proof.
  assert (Ht : title <$> Spec.member_list c
               = (λ e : SiteMarket * Q, title e.1) <$> Spec.entries c).
  { unfold Spec.member_list. by rewrite <- list_fmap_compose. }
  unfold build, Spec.product, Spec.longest_title. rewrite Ht.
  destruct (max_by_cons String.length (title (Spec.founder c))
              ((λ e : SiteMarket * Q, title e.1) <$> Spec.joined c))
    as (i & rep & Hrep & Hi & Hmax & Hfirst).
  change (title (Spec.founder c) :: _)
    with ((λ e : SiteMarket * Q, title e.1) <$> Spec.entries c)
    in Hrep, Hi, Hmax, Hfirst.
  rewrite Hrep, bind_ok.
  by rewrite (list_find_first_max String.length _ i rep).
Qed.

Lemma map_result_build (scs : list Spec.Cluster) :
  map_result build (Spec.entries <$> scs) = ok (Spec.product <$> scs).
Proof.
  induction scs as [|c scs IH]; [reflexivity|].
  cbn [fmap list_fmap map_result]. rewrite build_entries, bind_ok.
  change (list_fmap _ _ Spec.entries scs) with (Spec.entries <$> scs).
  by rewrite IH.
Qed.

Lemma cluster_markets_reference markets threshold :
  cluster_markets token_set_ratio markets threshold
  = ok (Spec.cluster sim markets threshold).
Proof.
  unfold cluster_markets.
  by rewrite form_clusters_reference, bind_ok, map_result_build.
Qed.

(** C1: the clustering pass is the greedy first-fit pass of the design
    document: records are taken in arrival order, each joins the first
    cluster in creation order whose centroid (its first member's title)
    scores at least the threshold, with that score, or else founds a new
    cluster with score 1; the function never fails, and an empty input
    yields an empty output. *)
Theorem cluster_markets_first_fit markets threshold :
  form_clusters token_set_ratio markets threshold
    = ok (Spec.entries <$> Spec.clusters sim markets threshold) ∧
  cluster_markets token_set_ratio markets threshold
    = ok (Spec.cluster sim markets threshold) ∧
  cluster_markets token_set_ratio [] threshold = ok [].
Proof.
  split_and!;
    [apply form_clusters_reference|apply cluster_markets_reference|done].
Qed.


(** ** First fit, spelled out *)

(** A record joins cluster [i] exactly when [i] is the least index whose
    centroid clears the threshold, whatever later clusters would score. *)
Lemma assign_first_fit threshold scs record i c :
  scs !! i = Some c →
  (threshold <= Spec.score sim record c)%Q →
  (∀ j c', j < i → scs !! j = Some c' →
           (Spec.score sim record c' < threshold)%Q) →
  Spec.assign sim threshold scs record
  = <[i := {| Spec.founder := Spec.founder c;
              Spec.joined :=
                Spec.joined c ++ [(record, Spec.score sim record c)] |}]> scs.
Proof.
  intros Hi Hq Hearlier. unfold Spec.assign.
  assert (list_find
            (λ c, Qle_bool threshold (Spec.score sim record c) = true) scs
          = Some (i, c)) as ->; [|done].
  apply list_find_Some. split_and!; [done|by apply Qle_bool_iff|].
  intros j c' Hj Hlt Hq'%Qle_bool_iff.
  specialize (Hearlier j c' Hlt Hj). lra.
Qed.

Lemma assign_new_cluster threshold scs record :
  (∀ c, c ∈ scs → (Spec.score sim record c < threshold)%Q) →
  Spec.assign sim threshold scs record
  = scs ++ [{| Spec.founder := record; Spec.joined := [] |}].
Proof.
  intros Hnone. unfold Spec.assign.
  assert (list_find
            (λ c, Qle_bool threshold (Spec.score sim record c) = true) scs
          = None) as ->; [|done].
  apply list_find_None, Forall_forall. intros c Hc Hq%Qle_bool_iff.
  specialize (Hnone c Hc). lra.
Qed.

(** The two lists of every product are aligned. *)
Lemma cluster_markets_parallel_lists markets threshold :
  ∃ unified,
    cluster_markets token_set_ratio markets threshold = ok unified ∧
    Forall (λ p, length (members p) = length (confidence_scores p)) unified.
Proof.
  eexists. split; [apply cluster_markets_reference|].
  apply Forall_fmap, Forall_forall. intros c _. cbn.
  by rewrite !length_fmap.
Qed.

(** ** The unified title *)

Lemma longest_title_first_max (c : Spec.Cluster) :
  ∃ i,
    (title <$> Spec.member_list c) !! i = Some (Spec.longest_title c) ∧
    (∀ z, z ∈ title <$> Spec.member_list c →
          String.length z ≤ String.length (Spec.longest_title c)) ∧
    (∀ j z, j < i → (title <$> Spec.member_list c) !! j = Some z →
            String.length z < String.length (Spec.longest_title c)).
Proof.
  destruct (max_by_cons String.length (title (Spec.founder c))
              (title <$> (Spec.joined c).*1))
    as (i & rep & _ & Hi & Hmax & Hfirst).
  change (title (Spec.founder c) :: _)
    with (title <$> Spec.member_list c) in Hi, Hmax, Hfirst.
  exists i. unfold Spec.longest_title.
  by rewrite (list_find_first_max String.length _ i rep).
Qed.

(** C7: the unified title of every product is the raw title of one of its
    members, no member has a longer title, and every member before that one
    has a strictly shorter title (ties go to the first occurrence). *)
Theorem unified_title_longest_first markets threshold :
  ∃ unified,
    cluster_markets token_set_ratio markets threshold = ok unified ∧
    ∀ p, p ∈ unified →
      ∃ i m,
        members p !! i = Some m ∧
        unified_title p = title m ∧
        (∀ m', m' ∈ members p →
           String.length (title m') ≤ String.length (unified_title p)) ∧
        (∀ j m', j < i → members p !! j = Some m' →
           String.length (title m') < String.length (unified_title p)).
Proof.
  eexists. split; [apply cluster_markets_reference|].
  intros p (c & -> & _)%list_elem_of_fmap.
  destruct (longest_title_first_max c) as (i & Hi & Hmax & Hfirst).
  cbn [Spec.product members unified_title].
  apply list_lookup_fmap_Some in Hi as (m & Hm & Hi).
  exists i, m. split_and!; [done|done| |].
  - intros m' Hm'. apply Hmax. by apply list_elem_of_fmap_2.
  - intros j m' Hj Hm'. apply (Hfirst j); [done|].
    by rewrite list_lookup_fmap, Hm'.
Qed.

(** ** Scores of the members that joined a cluster *)

Lemma assign_joined_ok threshold scs m :
  Forall (joined_ok sim threshold) scs →
  Forall (joined_ok sim threshold) (Spec.assign sim threshold scs m).
Proof.
  intros Hscs. unfold Spec.assign.
  destruct (list_find _ scs) as [[i c]|] eqn:Hfind.
  - apply list_find_Some in Hfind as (Hi & Hq & _).
    apply Forall_insert; [done|].
    eapply Forall_lookup_1 in Hscs; [|done].
    apply Forall_app. split; [done|].
    apply Forall_singleton. split; [done|]. by apply Qle_bool_iff.
  - apply Forall_app. split; [done|].
    apply Forall_singleton. constructor.
Qed.

Lemma clusters_joined_ok markets threshold :
  Forall (joined_ok sim threshold) (Spec.clusters sim markets threshold).
Proof.
  unfold Spec.clusters.
  assert (H : Forall (joined_ok sim threshold) []) by constructor.
  revert H. generalize (@nil Spec.Cluster).
  induction markets as [|m markets IH]; intros scs Hscs; [done|].
  cbn [fold_left]. by apply IH, assign_joined_ok.
Qed.

Lemma joined_ok_scores threshold c :
  joined_ok sim threshold c →
  (Spec.joined c).*2
  = (λ m, sim (title m) (title (Spec.founder c))) <$> (Spec.joined c).*1.
Proof.
  unfold joined_ok, Spec.centroid_title. generalize (Spec.joined c) as l.
  induction 1 as [|[m s] l [Hs _] _ IH]; [done|].
  cbn in *. by rewrite IH, Hs.
Qed.

(** C2 (amended): in every product, every member after the first has
    similarity at least the threshold to the title of the first member. *)
Theorem later_members_clear_threshold markets threshold :
  ∃ unified,
    cluster_markets token_set_ratio markets threshold = ok unified ∧
    ∀ p, p ∈ unified →
      ∃ first rest,
        members p = first :: rest ∧
        ∀ m, m ∈ rest → (threshold <= sim (title m) (title first))%Q.
Proof.
  eexists. split; [apply cluster_markets_reference|].
  intros p (c & -> & Hc)%list_elem_of_fmap.
  exists (Spec.founder c), (Spec.joined c).*1. split; [done|].
  pose proof (clusters_joined_ok markets threshold) as Hok.
  eapply Forall_forall in Hok; [|done].
  intros m ([m' s] & -> & He)%list_elem_of_fmap.
  eapply Forall_forall in Hok as [Hs Hle]; [|done].
  cbn in Hs, Hle. by rewrite Hs in Hle.
Qed.


(** C3: when the scorer ranges over 0..100, every confidence score lies in
    [0,1], the first one is exactly 1, and the score stored for a later
    member is its similarity to the first member's title. *)
Theorem confidence_scores_bounded :
  (∀ a b, (0 <= token_set_ratio a b <= 100)%Q) →
  ∀ markets threshold,
  ∃ unified,
    cluster_markets token_set_ratio markets threshold = ok unified ∧
    ∀ p, p ∈ unified →
      Forall (λ s, (0 <= s <= 1)%Q) (confidence_scores p) ∧
      ∃ first rest,
        members p = first :: rest ∧
        confidence_scores p
        = 1%Q :: ((λ m, sim (title m) (title first)) <$> rest).
Proof.
  intros Hrange markets threshold.
  eexists. split; [apply cluster_markets_reference|].
  intros p (c & -> & Hc)%list_elem_of_fmap.
  pose proof (clusters_joined_ok markets threshold) as Hok.
  eapply Forall_forall in Hok; [|done].
  assert (Hscores : confidence_scores (Spec.product c)
    = 1%Q :: ((λ m, sim (title m) (title (Spec.founder c)))
                <$> (Spec.joined c).*1)).
  { cbn. by rewrite (joined_ok_scores threshold). }
  split; [|by exists (Spec.founder c), (Spec.joined c).*1].
  rewrite Hscores. constructor; [lra|].
  apply Forall_fmap, Forall_forall. intros m _. cbn. unfold similarity.
  destruct (Hrange (normalize_title (title m))
                   (normalize_title (title (Spec.founder c)))).
  split; [apply Qle_shift_div_l|apply Qle_shift_div_r]; (reflexivity || lra).
Qed.

(** ** Degenerate thresholds *)

Lemma clusters_all_singletons threshold :
  (∀ m c, (Spec.score sim m c < threshold)%Q) →
  ∀ markets scs,
    fold_left (Spec.assign sim threshold) markets scs
    = scs ++ ((λ m, {| Spec.founder := m; Spec.joined := [] |}) <$> markets).
Proof.
  intros Hlow. induction markets as [|m markets IH]; intros scs.
  - by rewrite app_nil_r.
  - cbn [fold_left]. unfold Spec.assign at 2.
    assert (list_find (λ c, Qle_bool threshold (Spec.score sim m c) = true)
                      scs = None) as ->.
    { apply list_find_None, Forall_forall. intros c _ Hq%Qle_bool_iff.
      specialize (Hlow m c). lra. }
    rewrite IH, <- app_assoc. reflexivity.
Qed.

(** C5: with a scorer that never exceeds 100 and a threshold above 1, every
    market becomes a product of its own, in arrival order, with itself as
    the only member and the single score 1. *)
Theorem singleton_fallback :
  (∀ a b, (token_set_ratio a b <= 100)%Q) →
  ∀ markets threshold,
    (1 < threshold)%Q →
    cluster_markets token_set_ratio markets threshold
    = ok ((λ m, {| unified_title := title m;
                   members := [m];
                   confidence_scores := [1%Q] |}) <$> markets).
Proof.
  intros Hmax markets threshold Hthr.
  rewrite cluster_markets_reference. f_equal.
  unfold Spec.cluster, Spec.clusters.
  rewrite clusters_all_singletons.
  - rewrite app_nil_l, <- list_fmap_compose. apply list_fmap_ext.
    intros _ m _. unfold Spec.product, Spec.longest_title. cbn.
    rewrite Nat.max_0_r. by rewrite decide_True.
  - intros m c. unfold Spec.score, similarity.
    specialize (Hmax (normalize_title (title m))
                     (normalize_title (Spec.centroid_title c))).
    apply Qle_lt_trans with (y := 1%Q); [|done].
    apply Qle_shift_div_r; [reflexivity|lra].
Qed.

Lemma clusters_single threshold :
  (∀ m c, (threshold <= Spec.score sim m c)%Q) →
  ∀ markets c,
    fold_left (Spec.assign sim threshold) markets [c]
    = [{| Spec.founder := Spec.founder c;
          Spec.joined :=
            Spec.joined c ++ ((λ m, (m, Spec.score sim m c)) <$> markets) |}].
Proof.
  intros Hhigh. induction markets as [|m markets IH]; intros c.
  - cbn. rewrite app_nil_r. by destruct c.
  - cbn [fold_left]. unfold Spec.assign at 2. cbn [list_find].
    rewrite decide_True by apply Qle_bool_iff, Hhigh.
    cbn [fmap option_fmap option_map insert list_insert]. rewrite IH.
    cbn [Spec.founder Spec.joined]. rewrite <- app_assoc. reflexivity.
Qed.

(** C6: with a scorer that is never negative and a threshold of at most 0,
    a non-empty input yields exactly one product, whose members are all the
    markets in arrival order. *)
Theorem total_merge :
  (∀ a b, (0 <= token_set_ratio a b)%Q) →
  ∀ markets threshold,
    markets ≠ [] →
    (threshold <= 0)%Q →
    ∃ p,
      cluster_markets token_set_ratio markets threshold = ok [p] ∧
      members p = markets.
Proof.
  intros Hmin [|m0 markets] threshold Hne Hthr; [done|].
  rewrite cluster_markets_reference.
  unfold Spec.cluster, Spec.clusters. cbn [fold_left].
  change (Spec.assign sim threshold [] m0)
    with [{| Spec.founder := m0; Spec.joined := [] |}].
  rewrite clusters_single.
  - eexists. split; [reflexivity|]. cbn.
    rewrite <- list_fmap_compose. by rewrite list_fmap_id.
  - intros m c. unfold Spec.score, similarity.
    specialize (Hmin (normalize_title (title m))
                     (normalize_title (Spec.centroid_title c))).
    apply Qle_trans with (y := 0%Q); [done|].
    apply Qle_shift_div_l; [reflexivity|lra].
Qed.

End Clustering.

(* ===================================================================== *)
(** * Properties of the library scorer                                    *)
(* ===================================================================== *)

Section Scorer.

Lemma token_sets_inter_comm (A B : gset string) : B ∩ A = A ∩ B.
Proof. apply set_eq. intros x. rewrite !elem_of_intersection. tauto. Qed.

Lemma token_sets_self (A : gset string) : A ∩ A = A ∧ A ∖ A = ∅.
Proof.
  split; apply set_eq; intros x.
  - rewrite elem_of_intersection. tauto.
  - rewrite elem_of_difference, elem_of_empty. tauto.
Qed.

Lemma token_set_nonempty (ws : list string) :
  ws ≠ [] → list_to_set (C:=gset string) ws ≠ ∅.
Proof.
  destruct ws as [|w ws]; [done|]. intros _ Hempty.
  apply (not_elem_of_empty (C:=gset string) w). rewrite <- Hempty.
  apply elem_of_list_to_set. by left.
Qed.

Lemma lcs_length_nil_r a : Rapidfuzz.lcs_length a "" = 0.
Proof. by destruct a. Qed.

Lemma lcs_length_cons x a y b :
  Rapidfuzz.lcs_length (String x a) (String y b)
  = if Ascii.eqb x y then S (Rapidfuzz.lcs_length a b)
    else Nat.max (Rapidfuzz.lcs_length a (String y b)) (Rapidfuzz.lcs_length (String x a) b).
Proof. reflexivity. Qed.

Lemma lcs_length_comm a b : Rapidfuzz.lcs_length a b = Rapidfuzz.lcs_length b a.
Proof.
  revert b. induction a as [|x a IHa]; intros b.
  - by rewrite lcs_length_nil_r.
  - induction b as [|y b IHb]; [done|].
    rewrite !lcs_length_cons, (Ascii.eqb_sym y x), IHa, IHb, (IHa (String y b)).
    destruct (Ascii.eqb x y); [done|]. apply Nat.max_comm.
Qed.

Lemma lcs_length_le a b :
  Rapidfuzz.lcs_length a b ≤ String.length a ∧
  Rapidfuzz.lcs_length a b ≤ String.length b.
Proof.
  revert b. induction a as [|x a IHa]; intros b; [cbn; lia|].
  induction b as [|y b IHb]; [cbn; lia|].
  rewrite lcs_length_cons. cbn [String.length].
  destruct (IHa b), (IHa (String y b)), IHb. cbn [String.length] in *.
  destruct (Ascii.eqb x y); lia.
Qed.

Lemma indel_distance_comm a b : Rapidfuzz.indel_distance a b = Rapidfuzz.indel_distance b a.
Proof. unfold Rapidfuzz.indel_distance. rewrite (lcs_length_comm a b). lia. Qed.

Lemma indel_distance_le a b :
  Rapidfuzz.indel_distance a b ≤ String.length a + String.length b.
Proof. unfold Rapidfuzz.indel_distance. lia. Qed.

Lemma norm_distance_range dist lensum :
  dist ≤ lensum → (0 <= Rapidfuzz.norm_distance dist lensum <= 100)%Q.
Proof.
  intros Hle. unfold Rapidfuzz.norm_distance. destruct lensum as [|n]; [lra|].
  set (l := inject_Z (Z.of_nat (S n))). set (d := inject_Z (Z.of_nat dist)).
  assert (Hl : (0 < l)%Q) by (unfold l; rewrite <- (Zlt_Qlt 0); lia).
  assert (Hd : (0 <= d)%Q) by (unfold d; rewrite <- (Zle_Qle 0); lia).
  assert (Hdl : (d <= l)%Q) by (unfold d, l; rewrite <- Zle_Qle; lia).
  assert (0 <= 100 * d / l <= 100)%Q; [|lra].
  split; [apply Qle_shift_div_l|apply Qle_shift_div_r]; (done || lra).
Qed.

Lemma max2_cases x y : Rapidfuzz.max2 x y = x ∨ Rapidfuzz.max2 x y = y.
Proof. unfold Rapidfuzz.max2. destruct (Qle_bool y x); auto. Qed.

Lemma max2_spec x y :
  (x <= Rapidfuzz.max2 x y)%Q ∧ (y <= Rapidfuzz.max2 x y)%Q.
Proof.
  unfold Rapidfuzz.max2. destruct (Qle_bool y x) eqn:Hle.
  - apply Qle_bool_iff in Hle. lra.
  - assert (¬ (y <= x)%Q) by (rewrite <- Qle_bool_iff; congruence).
    apply Qnot_le_lt in H. lra.
Qed.

Lemma max2_comm3 r x y : (Rapidfuzz.max2 (Rapidfuzz.max2 r x) y == Rapidfuzz.max2 (Rapidfuzz.max2 r y) x)%Q.
Proof.
  destruct (max2_spec r x), (max2_spec r y),
    (max2_spec (Rapidfuzz.max2 r x) y), (max2_spec (Rapidfuzz.max2 r y) x).
  apply Qle_antisym.
  - destruct (max2_cases (Rapidfuzz.max2 r x) y) as [->| ->]; [|lra].
    destruct (max2_cases r x) as [->| ->]; lra.
  - destruct (max2_cases (Rapidfuzz.max2 r y) x) as [->| ->]; [|lra].
    destruct (max2_cases r y) as [->| ->]; lra.
Qed.

(** The library scorer returns a percentage. *)
Lemma token_set_ratio_range s1 s2 :
  (0 <= Rapidfuzz.token_set_ratio s1 s2 <= 100)%Q.
Proof.
  unfold Rapidfuzz.token_set_ratio.
  destruct (_ || _); [lra|]. destruct (_ && _); [lra|].
  match goal with
  | |- context [Rapidfuzz.indel_distance ?a ?b] =>
      pose proof (indel_distance_le a b) as Hdist
  end.
  destruct (_ =? 0); [apply norm_distance_range; lia|].
  repeat match goal with
  | |- context [Rapidfuzz.max2 ?x ?y] =>
      destruct (max2_cases x y) as [->| ->]
  end; apply norm_distance_range; lia.
Qed.

(** The library scorer does not depend on the order of its arguments. *)
Lemma token_set_ratio_comm s1 s2 :
  (Rapidfuzz.token_set_ratio s1 s2 == Rapidfuzz.token_set_ratio s2 s1)%Q.
Proof.
  unfold Rapidfuzz.token_set_ratio.
  generalize (list_to_set (C:=gset string) (Rapidfuzz.split s1)) as A.
  generalize (list_to_set (C:=gset string) (Rapidfuzz.split s2)) as B. intros B A.
  rewrite (orb_comm (bool_decide (B = ∅))).
  destruct (_ || _); [reflexivity|].
  rewrite (token_sets_inter_comm A B).
  rewrite (orb_comm (bool_decide (B ∖ A = ∅))).
  destruct (_ && _); [reflexivity|].
  rewrite (indel_distance_comm (Rapidfuzz.join (Rapidfuzz.sorted (B ∖ A)))).
  match goal with
  | |- context [Rapidfuzz.norm_distance ?d (?n + ?m)] =>
      rewrite (Nat.add_comm m n)
  end.
  destruct (_ =? 0); [reflexivity|]. apply max2_comm3.
Qed.

(** A string with at least one token scores 100 against itself. *)
Lemma token_set_ratio_refl s : Rapidfuzz.split s ≠ [] → Rapidfuzz.token_set_ratio s s = 100%Q.
Proof.
  intros Hs. unfold Rapidfuzz.token_set_ratio.
  apply token_set_nonempty in Hs. revert Hs.
  generalize (list_to_set (C:=gset string) (Rapidfuzz.split s)) as A.
  intros A HA. destruct (token_sets_self A) as [-> ->].
  rewrite (bool_decide_eq_false_2 _ HA). cbn [orb].
  rewrite (bool_decide_eq_true_2 (A ≠ ∅)) by done.
  by rewrite (bool_decide_eq_true_2 (∅ = ∅)).
Qed.

(** A string without tokens scores 0 against everything. *)
Lemma token_set_ratio_no_tokens s1 s2 :
  Rapidfuzz.split s1 = [] → Rapidfuzz.token_set_ratio s1 s2 = 0%Q.
Proof. intros Hs. unfold Rapidfuzz.token_set_ratio. by rewrite Hs. Qed.

End Scorer.

(* ===================================================================== *)
(** * similarity with the library scorer                                  *)
(* ===================================================================== *)

Lemma similarity_range a b :
  (0 <= similarity Rapidfuzz.token_set_ratio a b <= 1)%Q.
Proof.
  unfold similarity.
  destruct (token_set_ratio_range (normalize_title a) (normalize_title b)).
  split; [apply Qle_shift_div_l|apply Qle_shift_div_r]; (reflexivity || lra).
Qed.

(** C4 (amended): [similarity] lies in [0,1], is symmetric, and scores 1
    for a string against itself whenever its normalised form contains at
    least one token; a string whose normalised form has no token scores 0
    against every string. *)
Theorem similarity_bounded_symmetric_reflexive :
  (∀ a b, (0 <= similarity Rapidfuzz.token_set_ratio a b <= 1)%Q) ∧
  (∀ a b, (similarity Rapidfuzz.token_set_ratio a b
           == similarity Rapidfuzz.token_set_ratio b a)%Q) ∧
  (∀ a, Rapidfuzz.split (normalize_title a) ≠ [] →
        (similarity Rapidfuzz.token_set_ratio a a == 1)%Q) ∧
  (∀ a b, Rapidfuzz.split (normalize_title a) = [] →
          (similarity Rapidfuzz.token_set_ratio a b == 0)%Q).
Proof.
  split_and!.
  - apply similarity_range.
  - intros a b. unfold similarity.
    by rewrite (token_set_ratio_comm (normalize_title a)).
  - intros a Ha. unfold similarity. by rewrite token_set_ratio_refl.
  - intros a b Ha. unfold similarity.
    by rewrite token_set_ratio_no_tokens.
Qed.

Lemma similarity_reflexive_witness :
  (similarity Rapidfuzz.token_set_ratio
     "Will X win the 2024 election?" "Will X win the 2024 election?" == 1)%Q.
Proof.
  apply (proj1 (proj2 (proj2 similarity_bounded_symmetric_reflexive))).
  vm_compute. discriminate.
Defined.

(** C4, as stated, fails: a non-empty string made of punctuation only has
    no tokens and scores 0 against itself. *)
Lemma similarity_not_reflexive :
  "?" ≠ "" ∧
  (similarity Rapidfuzz.token_set_ratio "?" "?" == 0)%Q ∧
  ¬ (similarity Rapidfuzz.token_set_ratio "?" "?" == 1)%Q.
Proof. split_and!; [done|by vm_compute|by vm_compute]. Qed.

(** NBSP is whitespace for [str.strip] but a token character for the
    scorer: "?", NBSP, "?" normalises to a string whose one token is NBSP
    and scores 1 against itself, and "a", NBSP, "b" is one token, which
    scores 0.5 against "a". *)
Example nbsp_is_a_token_character :
  let nbsp := ascii_of_N 160 in
  PyStr.isspace nbsp = true ∧
  Rapidfuzz.split (normalize_title (String "?" (String nbsp "?")))
  = [String nbsp ""] ∧
  (similarity Rapidfuzz.token_set_ratio
     (String "?" (String nbsp "?")) (String "?" (String nbsp "?")) == 1)%Q ∧
  (similarity Rapidfuzz.token_set_ratio
     (String "a" (String nbsp "b")) "a" == 1 # 2)%Q.
Proof. split_and!; by vm_compute. Qed.

(* ===================================================================== *)
(** * cluster_markets with the library scorer: concrete runs              *)
(* ===================================================================== *)

(** C2, as stated, fails for the first member: it is stored without being
    compared, and with a threshold of 1.5 its similarity to the centroid
    (its own title) is 1, below the threshold. *)
Lemma first_member_below_threshold :
  cluster_markets Rapidfuzz.token_set_ratio [market_x] (3 # 2)
  = ok [{| unified_title := "x";
           members := [market_x];
           confidence_scores := [1%Q] |}] ∧
  ¬ (3 # 2 <= similarity Rapidfuzz.token_set_ratio
                (title market_x) (title market_x))%Q.
Proof. split; [reflexivity|by vm_compute]. Qed.

Lemma confidence_scores_bounded_witness :
  ∃ unified,
    cluster_markets Rapidfuzz.token_set_ratio
      [market_x; market_y; market_xy] default_threshold = ok unified ∧
    ∀ p, p ∈ unified →
      Forall (λ s, (0 <= s <= 1)%Q) (confidence_scores p) ∧
      ∃ first rest,
        members p = first :: rest ∧
        confidence_scores p
        = 1%Q :: ((λ m, similarity Rapidfuzz.token_set_ratio
                          (title m) (title first)) <$> rest).
Proof.
  exact (confidence_scores_bounded Rapidfuzz.token_set_ratio
           token_set_ratio_range
           [market_x; market_y; market_xy] default_threshold).
Defined.

Lemma singleton_fallback_witness :
  (1 < 3 # 2)%Q ∧
  cluster_markets Rapidfuzz.token_set_ratio
    [market_x; market_xy] (3 # 2)
  = ok [ {| unified_title := "x"; members := [market_x];
            confidence_scores := [1%Q] |};
         {| unified_title := "x y"; members := [market_xy];
            confidence_scores := [1%Q] |} ].
Proof.
  split; [reflexivity|].
  apply (singleton_fallback Rapidfuzz.token_set_ratio
           (λ a b, proj2 (token_set_ratio_range a b))
           [market_x; market_xy] (3 # 2)).
  reflexivity.
Defined.

Lemma total_merge_witness :
  [market_x; market_y] ≠ [] ∧ (0 <= 0)%Q ∧
  ∃ p,
    cluster_markets Rapidfuzz.token_set_ratio [market_x; market_y] 0 = ok [p] ∧
    members p = [market_x; market_y].
Proof.
  split; [done|]. split; [apply Qle_refl|].
  apply (total_merge Rapidfuzz.token_set_ratio
           (λ a b, proj1 (token_set_ratio_range a b))
           [market_x; market_y] 0%Q); [done|apply Qle_refl].
Defined.

(** First fit is not best fit: "a b" joins the cluster of "a c", the first
    one that clears the threshold 0.6, although "b" scores higher. *)
Example first_fit_not_best_fit :
  ∃ unified,
    cluster_markets Rapidfuzz.token_set_ratio
      [market_ac; market_b; market_ab] (6 # 10) = ok unified ∧
    members <$> unified = [[market_ac; market_ab]; [market_b]] ∧
    (6 # 10 <= similarity Rapidfuzz.token_set_ratio
                 (title market_ab) (title market_ac))%Q ∧
    (similarity Rapidfuzz.token_set_ratio (title market_ab) (title market_ac)
     < similarity Rapidfuzz.token_set_ratio
         (title market_ab) (title market_b))%Q.
Proof. eexists. split_and!; [by vm_compute..]. Qed.

(** The election example of section 8: one cluster of three. *)
Example election_titles_one_cluster :
  ∃ p,
    cluster_markets Rapidfuzz.token_set_ratio election_markets
      default_threshold = ok [p] ∧
    members p = election_markets.
Proof. eexists. split; by vm_compute. Qed.

(** C10: reordering the input can change the grouping.  With the default
    threshold, "x y" joins whichever of "x" and "y" arrived first. *)
Theorem order_sensitivity :
  ∃ R R' t,
    R ≡ₚ R' ∧
    cluster_markets Rapidfuzz.token_set_ratio R t
      ≠ cluster_markets Rapidfuzz.token_set_ratio R' t ∧
    ∃ unified unified' a b,
      cluster_markets Rapidfuzz.token_set_ratio R t = ok unified ∧
      cluster_markets Rapidfuzz.token_set_ratio R' t = ok unified' ∧
      (∃ p, p ∈ unified ∧ a ∈ members p ∧ b ∈ members p) ∧
      ¬ (∃ p, p ∈ unified' ∧ a ∈ members p ∧ b ∈ members p).
Proof.
  exists [market_x; market_y; market_xy], [market_y; market_x; market_xy],
    default_threshold.
  split; [apply perm_swap|]. split; [by vm_compute|].
  eexists _, _, market_x, market_xy.
  split; [by vm_compute|]. split; [by vm_compute|]. split.
  - eexists. split; [left|]. cbn. split; [left|right; left].
  - intros (p & Hp & Hx & Hxy). cbv [members] in *.
    repeat match goal with
    | H : _ ∈ [] |- _ => by apply not_elem_of_nil in H
    | H : _ ∈ _ :: _ |- _ => apply elem_of_cons in H as [H|H]; subst
    end; discriminate.
Qed.

(* ===================================================================== *)
(** * Properties of export_csv                                            *)
(* ===================================================================== *)

Section Serializer.

Lemma string_length_app (s1 s2 : string) :
  String.length (s1 +:+ s2) = String.length s1 + String.length s2.
Proof.
  induction s1 as [|c s1 IH]; [reflexivity|].
  change (String c s1 +:+ s2) with (String c (s1 +:+ s2)).
  cbn [String.length]. by rewrite IH.
Qed.

Lemma string_app_assoc (s1 s2 s3 : string) :
  (s1 +:+ s2) +:+ s3 = s1 +:+ (s2 +:+ s3).
Proof.
  induction s1 as [|c s1 IH]; [reflexivity|].
  change (String c s1 +:+ s2) with (String c (s1 +:+ s2)).
  change (String c ?s +:+ ?t) with (String c (s +:+ t)).
  by rewrite IH.
Qed.

Lemma digits_length d n : String.length (digits d n) = d.
Proof.
  revert n. induction d as [|d IH]; intros n; [done|].
  cbn [digits]. rewrite string_length_app, IH. cbn. lia.
Qed.

(** Fixed precision: for [d > 0] the output ends in a point followed by
    exactly [d] characters. *)
Lemma format_fixed_precision d x :
  d ≠ 0 →
  ∃ front frac,
    format_fixed d x = front +:+ "." +:+ frac ∧ String.length frac = d.
Proof.
  intros Hd. unfold format_fixed. destruct d as [|d]; [done|].
  eexists (_ +:+ _), _. split; [|apply digits_length].
  by rewrite string_app_assoc.
Qed.

Lemma zip_length {A B} (xs : list A) (ys : list B) :
  length (PyStr.zip xs ys) = Nat.min (length xs) (length ys).
Proof.
  revert ys. induction xs as [|x xs IH]; intros [|y ys]; cbn; auto.
Qed.

Lemma zip_fst {A B} (xs : list A) (ys : list B) :
  length xs ≤ length ys → (PyStr.zip xs ys).*1 = xs.
Proof.
  revert ys. induction xs as [|x xs IH]; intros [|y ys] Hle; cbn in *;
    [done|done|lia|].
  f_equal. apply IH. lia.
Qed.

Lemma write_rows {A} (f : A → list string) (l : list A) (w : csv_writer) :
  fold_left (λ w x, writerow w (f x)) l w = w ++ (f <$> l).
Proof.
  revert w. induction l as [|x l IH]; intros w; cbn [fold_left].
  - by rewrite app_nil_r.
  - rewrite IH. unfold writerow. by rewrite <- app_assoc.
Qed.

Lemma write_products (unified : list UnifiedProduct) (w : csv_writer) :
  fold_left
    (λ w up,
       fold_left
         (λ w mc, writerow w (member_row up mc.1 mc.2))
         (PyStr.zip (members up) (confidence_scores up)) w)
    unified w
  = w ++ (unified ≫= product_rows).
Proof.
  revert w. induction unified as [|up unified IH]; intros w; cbn [fold_left].
  - by rewrite app_nil_r.
  - rewrite write_rows, IH, <- app_assoc. reflexivity.
Qed.

Lemma export_csv_rows unified :
  export_csv unified = header :: (unified ≫= product_rows).
Proof. unfold export_csv. by rewrite write_products. Qed.

(** The number of data rows, whatever the lengths of the two lists. *)
Lemma data_rows_count unified :
  length (data_rows unified)
  = sum_list ((λ up, Nat.min (length (members up))
                             (length (confidence_scores up))) <$> unified).
Proof.
  unfold data_rows. rewrite export_csv_rows. cbn [tail].
  induction unified as [|up unified IH]; [done|].
  cbn [mbind list_bind fmap list_fmap sum_list sum_list_with].
  rewrite length_app, IH. unfold product_rows at 1.
  by rewrite length_fmap, zip_length.
Qed.

(** C9 (amended): when every product has at least as many confidence
    scores as members, the writer receives the header and then exactly one
    row per (product, member) pair, in product order then member order;
    the row holds the unified title, the member's site and id, the price
    (empty when absent, else with 4 decimals) and the member's score with 3
    decimals; the number of data rows is the sum of the member counts. *)
Theorem export_csv_one_row_per_member unified :
  Forall (λ up, length (members up) ≤ length (confidence_scores up))
         unified →
  export_csv unified
  = header ::
    (up ← unified;
     mc ← PyStr.zip (members up) (confidence_scores up);
     [[ unified_title up;
        site mc.1;
        id mc.1;
        match price mc.1 with
        | None => ""
        | Some p => format_fixed 4 p
        end;
        format_fixed 3 mc.2 ]]) ∧
  (∀ up, up ∈ unified →
     (PyStr.zip (members up) (confidence_scores up)).*1 = members up) ∧
  length (data_rows unified) = sum_list (length ∘ members <$> unified) ∧
  (∀ x, ∃ front frac,
     format_fixed 4 x = front +:+ "." +:+ frac ∧ String.length frac = 4) ∧
  (∀ x, ∃ front frac,
     format_fixed 3 x = front +:+ "." +:+ frac ∧ String.length frac = 3).
Proof.
  intros Haligned. split_and!.
  - rewrite export_csv_rows. apply (f_equal (cons header)).
    clear Haligned. induction unified as [|up unified IH]; [done|].
    cbn [mbind list_bind]. rewrite IH. apply (f_equal (λ l, l ++ _)).
    unfold product_rows.
    induction (PyStr.zip _ _) as [|mc l IHl]; [done|].
    cbn [fmap list_fmap mbind list_bind]. by rewrite <- IHl.
  - intros up Hup. apply zip_fst.
    by eapply Forall_forall in Haligned.
  - rewrite data_rows_count.
    induction Haligned as [|up unified Hup _ IH]; [done|].
    cbn [fmap list_fmap sum_list sum_list_with compose]. rewrite IH.
    cbn. lia.
  - intros x. by apply format_fixed_precision.
  - intros x. by apply format_fixed_precision.
Qed.

End Serializer.

(** C9, as stated, fails for a product with fewer scores than members:
    [zip] stops at the shorter list, so the member gets no row. *)
Lemma export_csv_drops_unscored_member :
  export_csv [product_without_scores] = [header] ∧
  length (data_rows [product_without_scores]) = 0 ∧
  sum_list (length ∘ members <$> [product_without_scores]) = 1.
Proof. by vm_compute. Qed.

Lemma export_csv_one_row_per_member_witness :
  length (data_rows
            [{| unified_title := "x y";
                members := [market_x; market_xy];
                confidence_scores := [1%Q; 1%Q] |}]) = 2.
Proof.
  refine (proj1 (proj2 (proj2 (export_csv_one_row_per_member
            [{| unified_title := "x y";
                members := [market_x; market_xy];
                confidence_scores := [1%Q; 1%Q] |}] _)))).
  repeat constructor.
Defined.

(* ===================================================================== *)
(** * Structure of the clustering output                                  *)
(* ===================================================================== *)

Section Partition.

Variable token_set_ratio : scorer.

Local Notation "'sim'" := (similarity token_set_ratio).

(** The two ways a record is placed, with all the facts of the choice. *)
Lemma assign_cases threshold scs m :
  (∃ i c,
     scs !! i = Some c ∧
     (threshold <= Spec.score sim m c)%Q ∧
     (∀ j c', j < i → scs !! j = Some c' →
              (Spec.score sim m c' < threshold)%Q) ∧
     Spec.assign sim threshold scs m
     = <[i := {| Spec.founder := Spec.founder c;
                 Spec.joined :=
                   Spec.joined c ++ [(m, Spec.score sim m c)] |}]> scs) ∨
  ((∀ c, c ∈ scs → (Spec.score sim m c < threshold)%Q) ∧
   Spec.assign sim threshold scs m
   = scs ++ [{| Spec.founder := m; Spec.joined := [] |}]).
Proof.
  unfold Spec.assign.
  destruct (list_find _ scs) as [[i c]|] eqn:Hfind.
  - left. exists i, c.
    apply list_find_Some in Hfind as (Hi & Hq%Qle_bool_iff & Hmin).
    split_and!; [done|done| |done].
    intros j c' Hj Hc'. apply Qnot_le_lt. intros Hle%Qle_bool_iff.
    by apply (Hmin j c').
  - right. split; [|done]. intros c Hc. apply Qnot_le_lt.
    intros Hle%Qle_bool_iff.
    apply list_find_None in Hfind. by eapply Forall_forall in Hfind.
Qed.

Lemma member_list_joined c m s :
  Spec.member_list {| Spec.founder := Spec.founder c;
                      Spec.joined := Spec.joined c ++ [(m, s)] |}
  = Spec.member_list c ++ [m].
Proof. unfold Spec.member_list, Spec.entries. cbn. by rewrite fmap_app. Qed.

Lemma assign_members_perm threshold scs m :
  concat (Spec.member_list <$> Spec.assign sim threshold scs m)
  ≡ₚ concat (Spec.member_list <$> scs) ++ [m].
Proof.
  destruct (assign_cases threshold scs m)
    as [(i & c & Hi & _ & _ & ->)|[_ ->]].
  - rewrite list_fmap_insert, member_list_joined.
    rewrite <- (take_drop_middle (Spec.member_list <$> scs) i
                  (Spec.member_list c)) at 2
      by (by rewrite list_lookup_fmap, Hi).
    rewrite insert_take_drop
      by (rewrite length_fmap; by eapply lookup_lt_Some).
    rewrite !concat_app, !concat_cons. solve_Permutation.
  - rewrite fmap_app, concat_app. reflexivity.
Qed.

Lemma clusters_members_perm threshold markets scs :
  concat (Spec.member_list
            <$> fold_left (Spec.assign sim threshold) markets scs)
  ≡ₚ concat (Spec.member_list <$> scs) ++ markets.
Proof.
  revert scs. induction markets as [|m markets IH]; intros scs.
  - by rewrite app_nil_r.
  - cbn [fold_left]. rewrite IH, assign_members_perm.
    by rewrite <- app_assoc.
Qed.

(** X1: the products partition the input. *)
Theorem cluster_markets_partition markets threshold :
  ∃ unified,
    cluster_markets token_set_ratio markets threshold = ok unified ∧
    concat (members <$> unified) ≡ₚ markets.
Proof.
  eexists. split; [apply cluster_markets_reference|].
  unfold Spec.cluster. rewrite <- list_fmap_compose.
  change (members ∘ Spec.product) with Spec.member_list.
  unfold Spec.clusters. by rewrite clusters_members_perm.
Qed.

(** ** Arrival order *)

Lemma assign_sublists threshold (P : list SiteMarket) scs m :
  Forall (λ c, Spec.member_list c `sublist_of` P) scs →
  Forall (λ c, Spec.member_list c `sublist_of` P ++ [m])
         (Spec.assign sim threshold scs m).
Proof.
  intros Hscs.
  assert (Hweak : Forall (λ c, Spec.member_list c `sublist_of` P ++ [m]) scs).
  { eapply Forall_impl; [done|]. intros c Hc. by apply sublist_inserts_r. }
  destruct (assign_cases threshold scs m)
    as [(i & c & Hi & _ & _ & ->)|[_ ->]].
  - apply Forall_insert; [done|]. rewrite member_list_joined.
    apply sublist_app; [|done]. by eapply (Forall_lookup_1 _ _ _ _ Hscs).
  - apply Forall_app. split; [done|]. apply Forall_singleton.
    by apply sublist_inserts_l.
Qed.

Lemma assign_founders threshold (P : list SiteMarket) scs m :
  Spec.founder <$> scs `sublist_of` P →
  Spec.founder <$> Spec.assign sim threshold scs m `sublist_of` P ++ [m].
Proof.
  intros Hscs.
  destruct (assign_cases threshold scs m)
    as [(i & c & Hi & _ & _ & ->)|[_ ->]].
  - rewrite list_fmap_insert. cbn [Spec.founder].
    rewrite list_insert_id by (by rewrite list_lookup_fmap, Hi).
    by apply sublist_inserts_r.
  - rewrite fmap_app. by apply sublist_app.
Qed.

Lemma clusters_sublists threshold markets :
  ∀ P scs,
    Forall (λ c, Spec.member_list c `sublist_of` P) scs →
    Spec.founder <$> scs `sublist_of` P →
    Forall (λ c, Spec.member_list c `sublist_of` P ++ markets)
           (fold_left (Spec.assign sim threshold) markets scs) ∧
    Spec.founder <$> fold_left (Spec.assign sim threshold) markets scs
      `sublist_of` P ++ markets.
Proof.
  induction markets as [|m markets IH]; intros P scs Hm Hf.
  - by rewrite app_nil_r.
  - cbn [fold_left]. rewrite cons_middle, app_assoc.
    apply IH; [by apply assign_sublists|by apply assign_founders].
Qed.

(** X2: arrival order is kept inside every product and between the
    founders of the products. *)
Theorem cluster_markets_arrival_order markets threshold :
  ∃ unified,
    cluster_markets token_set_ratio markets threshold = ok unified ∧
    Forall (λ p, members p `sublist_of` markets) unified ∧
    ∃ founders,
      Forall2 (λ p f, head (members p) = Some f) unified founders ∧
      founders `sublist_of` markets.
Proof.
  eexists. split; [apply cluster_markets_reference|].
  destruct (clusters_sublists threshold markets [] [])
    as [Hm Hf]; [constructor|done|].
  rewrite app_nil_l in Hm, Hf. split.
  - by apply Forall_fmap.
  - exists (Spec.founder <$> Spec.clusters sim markets threshold).
    split; [|done]. apply Forall2_fmap, Forall_Forall2_diag, Forall_forall.
    by intros c _.
Qed.

(** ** Number and shape of the products *)

Lemma assign_length threshold scs m :
  length scs ≤ length (Spec.assign sim threshold scs m) ≤ S (length scs) ∧
  Spec.assign sim threshold scs m ≠ [].
Proof.
  destruct (assign_cases threshold scs m)
    as [(i & c & Hi & _ & _ & ->)|[_ ->]].
  - rewrite length_insert. split; [lia|].
    intros Hnil. apply (f_equal length) in Hnil.
    rewrite length_insert in Hnil. apply lookup_lt_Some in Hi.
    cbn in Hnil. lia.
  - rewrite length_app. cbn. split; [lia|]. by destruct scs.
Qed.

Lemma clusters_length threshold markets scs :
  length (fold_left (Spec.assign sim threshold) markets scs)
  ≤ length scs + length markets.
Proof.
  revert scs. induction markets as [|m markets IH]; intros scs; cbn; [lia|].
  etrans; [apply IH|]. destruct (assign_length threshold scs m). lia.
Qed.

Lemma clusters_nonempty threshold markets scs :
  scs ≠ [] → fold_left (Spec.assign sim threshold) markets scs ≠ [].
Proof.
  revert scs. induction markets as [|m markets IH]; intros scs Hne; [done|].
  cbn [fold_left]. apply IH, assign_length.
Qed.

(** X3: there are at most as many products as markets and at least one
    for a non-empty input; no product is empty, and its two lists have the
    same length. *)
Theorem cluster_markets_shape markets threshold :
  ∃ unified,
    cluster_markets token_set_ratio markets threshold = ok unified ∧
    length unified ≤ length markets ∧
    (markets ≠ [] → unified ≠ []) ∧
    Forall (λ p, members p ≠ [] ∧
                 length (members p) = length (confidence_scores p)) unified.
Proof.
  eexists. split; [apply cluster_markets_reference|].
  unfold Spec.cluster, Spec.clusters. split_and!.
  - rewrite length_fmap. apply (clusters_length threshold markets []).
  - destruct markets as [|m markets]; [done|]. intros _ Hnil.
    apply fmap_nil_inv in Hnil. revert Hnil. cbn [fold_left].
    apply clusters_nonempty, assign_length.
  - apply Forall_fmap, Forall_forall. intros c _. cbn.
    by rewrite !length_fmap.
Qed.

(** ** First fit, seen in the output *)

Lemma score_founder m c c' :
  Spec.founder c' = Spec.founder c →
  Spec.score sim m c' = Spec.score sim m c.
Proof. unfold Spec.score, Spec.centroid_title. by intros ->. Qed.

Lemma assign_earlier_rejected threshold scs m :
  earlier_rejected sim threshold scs →
  earlier_rejected sim threshold (Spec.assign sim threshold scs m).
Proof.
  intros Hinv.
  destruct (assign_cases threshold scs m)
    as [(k & c & Hk & _ & Hmin & ->)|[Hnone ->]];
    intros i j ci cj x Hij Hi Hj Hx.
  - assert (∃ ci0, scs !! i = Some ci0 ∧
                   Spec.founder ci = Spec.founder ci0) as (ci0 & Hi0 & Hfi).
    { apply list_lookup_insert_Some in Hi as [(<- & <- & _)|[_ Hi]]; eauto. }
    rewrite (score_founder x ci0 ci Hfi).
    apply list_lookup_insert_Some in Hj as [(-> & <- & _)|[Hne Hj]].
    + rewrite member_list_joined in Hx.
      apply elem_of_app in Hx as [Hx| ->%list_elem_of_singleton].
      * by apply (Hinv i j ci0 c x).
      * by apply (Hmin i).
    + by apply (Hinv i j ci0 cj x).
  - apply lookup_app_Some in Hj as [Hj|[Hlen Hj]].
    + assert (scs !! i = Some ci) as Hi'.
      { pose proof (lookup_lt_Some _ _ _ Hj).
        by rewrite lookup_app_l in Hi by lia. }
      by apply (Hinv i j ci cj x).
    + apply list_lookup_singleton_Some in Hj as [Hj0 <-].
      apply list_elem_of_singleton in Hx as ->.
      apply Hnone. rewrite lookup_app_l in Hi by lia.
      by eapply list_elem_of_lookup_2.
Qed.

Lemma clusters_earlier_rejected threshold markets scs :
  earlier_rejected sim threshold scs →
  earlier_rejected sim threshold
    (fold_left (Spec.assign sim threshold) markets scs).
Proof.
  revert scs. induction markets as [|m markets IH]; intros scs Hinv; [done|].
  cbn [fold_left]. by apply IH, assign_earlier_rejected.
Qed.

(** X4: a member of a product scores below the threshold against the
    centroid of every earlier product. *)
Theorem cluster_markets_earlier_rejected markets threshold :
  ∃ unified,
    cluster_markets token_set_ratio markets threshold = ok unified ∧
    ∀ i j pi pj first x,
      i < j →
      unified !! i = Some pi →
      unified !! j = Some pj →
      head (members pi) = Some first →
      x ∈ members pj →
      (sim (title x) (title first) < threshold)%Q.
Proof.
  eexists. split; [apply cluster_markets_reference|].
  intros i j pi pj first x Hij Hi Hj Hfirst Hx.
  unfold Spec.cluster in Hi, Hj.
  apply list_lookup_fmap_Some in Hi as (ci & -> & Hci).
  apply list_lookup_fmap_Some in Hj as (cj & -> & Hcj).
  injection Hfirst as <-.
  assert (Hnil : earlier_rejected sim threshold []).
  { intros ? ? ? ? ? _ Hnil. by rewrite lookup_nil in Hnil. }
  by apply (clusters_earlier_rejected threshold markets [] Hnil i j ci cj x).
Qed.

(** X5: one more record at the end never revises the grouping of the
    earlier ones: it is appended to one product or forms a new last one. *)
Theorem cluster_markets_incremental markets m threshold :
  ∃ unified unified',
    cluster_markets token_set_ratio markets threshold = ok unified ∧
    cluster_markets token_set_ratio (markets ++ [m]) threshold
      = ok unified' ∧
    ((∃ i ms,
        (members <$> unified) !! i = Some ms ∧
        members <$> unified' = <[i := ms ++ [m]]> (members <$> unified)) ∨
     members <$> unified' = (members <$> unified) ++ [[m]]).
Proof.
  eexists _, _.
  split; [apply cluster_markets_reference|].
  split; [apply cluster_markets_reference|].
  unfold Spec.cluster, Spec.clusters. rewrite fold_left_app. cbn [fold_left].
  rewrite <- !list_fmap_compose.
  change (members ∘ Spec.product) with Spec.member_list.
  set (scs := fold_left (Spec.assign sim threshold) markets []).
  destruct (assign_cases threshold scs m)
    as [(i & c & Hi & _ & _ & ->)|[_ ->]].
  - left. exists i, (Spec.member_list c).
    split; [by rewrite list_lookup_fmap, Hi|].
    by rewrite list_fmap_insert, member_list_joined.
  - right. by rewrite fmap_app.
Qed.

End Partition.

(* ===================================================================== *)
(** * Further properties of normalize_title and similarity                *)
(* ===================================================================== *)

Section NormalizerShape.

Lemma contains_char_cons c d s :
  PyStr.contains (String c "") (String d s)
  = Ascii.eqb c d || PyStr.contains (String c "") s.
Proof. cbn. by rewrite andb_true_r. Qed.

Lemma replace_punctuation_clean c s :
  Spec.is_punctuation c = true →
  PyStr.contains (String c "") (Spec.replace_punctuation s) = false.
Proof.
  intros Hc. induction s as [|d s IH]; [done|].
  cbn [Spec.replace_punctuation]. rewrite contains_char_cons, IH, orb_false_r.
  apply Ascii.eqb_neq. intros ->.
  destruct (Spec.is_punctuation d) eqn:Hd; [done|congruence].
Qed.

Lemma squeeze_keeps_absent c s :
  PyStr.contains (String c "") s = false →
  PyStr.contains (String c "") (Spec.squeeze s) = false.
Proof.
  induction s as [|d s IH]; [done|].
  rewrite contains_char_cons. intros [Hd Hs]%orb_false_iff.
  cbn [Spec.squeeze]. destruct (_ && _); [by apply IH|].
  rewrite contains_char_cons, Hd. by apply IH.
Qed.

Lemma punctuation_chars ch :
  ch ∈ punctuation → ∃ c, ch = String c "" ∧ Spec.is_punctuation c = true.
Proof.
  unfold punctuation. intros Hch.
  repeat (apply elem_of_cons in Hch as [->|Hch]; [by eexists|]).
  by apply not_elem_of_nil in Hch.
Qed.

Lemma squeeze_length s : String.length (Spec.squeeze s) ≤ String.length s.
Proof.
  induction s as [|c s IH]; [done|].
  cbn [Spec.squeeze]. destruct (_ && _); cbn [String.length]; lia.
Qed.

Lemma replace_punctuation_length s :
  String.length (Spec.replace_punctuation s) = String.length s.
Proof. induction s as [|c s IH]; [done|]. cbn. by rewrite IH. Qed.

Lemma lstrip_length s : String.length (PyStr.lstrip s) ≤ String.length s.
Proof.
  induction s as [|c s IH]; [done|].
  cbn [PyStr.lstrip]. destruct (PyStr.isspace c); cbn [String.length]; lia.
Qed.

Lemma rstrip_length s : String.length (PyStr.rstrip s) ≤ String.length s.
Proof.
  induction s as [|c s IH]; [done|].
  cbn [PyStr.rstrip]. destruct (PyStr.rstrip s);
    [destruct (PyStr.isspace c)|]; cbn [String.length] in *; lia.
Qed.

(** X6: the normalised title contains none of the ten punctuation
    characters and is never longer than the lower-cased title: stripping
    and collapsing only remove characters, and a punctuation character is
    replaced by one space.  The bound is against [title.lower()], not
    against the title: lower-casing is the one step that can lengthen a
    string once characters beyond U+00FF are admitted. *)
Theorem normalize_title_clean title :
  (∀ ch, ch ∈ punctuation →
         PyStr.contains ch (normalize_title title) = false) ∧
  String.length (normalize_title title) ≤ String.length (PyStr.lower title).
Proof.
  unfold normalize_title. rewrite collapse_loop_squeeze, punctuation_pass.
  split.
  - intros ch (c & -> & Hc)%punctuation_chars.
    by apply squeeze_keeps_absent, replace_punctuation_clean.
  - etrans; [apply squeeze_length|].
    rewrite replace_punctuation_length. unfold PyStr.strip.
    etrans; [apply rstrip_length|]. apply lstrip_length.
Qed.

(** ** Case and surrounding whitespace *)

Lemma lower_char_idem c : PyStr.lower_char (PyStr.lower_char c) = PyStr.lower_char c.
Proof. by destruct c as [[] [] [] [] [] [] [] []]. Qed.

Lemma isspace_lower_char c : PyStr.isspace (PyStr.lower_char c) = PyStr.isspace c.
Proof. by destruct c as [[] [] [] [] [] [] [] []]. Qed.

Lemma lower_idem s : PyStr.lower (PyStr.lower s) = PyStr.lower s.
Proof.
  induction s as [|c s IH]; [done|]. cbn. by rewrite lower_char_idem, IH.
Qed.

Lemma lower_lstrip s : PyStr.lower (PyStr.lstrip s) = PyStr.lstrip (PyStr.lower s).
Proof.
  induction s as [|c s IH]; [done|].
  cbn [PyStr.lstrip PyStr.lower]. rewrite isspace_lower_char.
  by destruct (PyStr.isspace c).
Qed.

Lemma lower_rstrip s : PyStr.lower (PyStr.rstrip s) = PyStr.rstrip (PyStr.lower s).
Proof.
  induction s as [|c s IH]; [done|].
  cbn [PyStr.rstrip PyStr.lower]. rewrite <- IH, isspace_lower_char.
  destruct (PyStr.rstrip s); [by destruct (PyStr.isspace c)|done].
Qed.

Lemma lower_strip s : PyStr.lower (PyStr.strip s) = PyStr.strip (PyStr.lower s).
Proof. unfold PyStr.strip. by rewrite lower_rstrip, lower_lstrip. Qed.

Lemma lstrip_head s :
  PyStr.lstrip s = "" ∨
  ∃ c r, PyStr.lstrip s = String c r ∧ PyStr.isspace c = false.
Proof.
  induction s as [|c s IH]; [by left|].
  cbn [PyStr.lstrip]. destruct (PyStr.isspace c) eqn:Hc; [done|].
  right. by exists c, s.
Qed.

Lemma rstrip_cons c s :
  PyStr.rstrip (String c s)
  = match PyStr.rstrip s with
    | "" => if PyStr.isspace c then "" else String c ""
    | r => String c r
    end.
Proof. reflexivity. Qed.

Lemma rstrip_idem s : PyStr.rstrip (PyStr.rstrip s) = PyStr.rstrip s.
Proof.
  induction s as [|c s IH]; [done|].
  rewrite rstrip_cons. destruct (PyStr.rstrip s) as [|d r] eqn:Hr.
  - destruct (PyStr.isspace c) eqn:Hc; [done|]. cbn. by rewrite Hc.
  - by rewrite rstrip_cons, IH.
Qed.

Lemma rstrip_head c r :
  PyStr.isspace c = false → ∃ r', PyStr.rstrip (String c r) = String c r'.
Proof.
  intros Hc. cbn [PyStr.rstrip]. destruct (PyStr.rstrip r);
    [rewrite Hc|]; by eexists.
Qed.

Lemma strip_idem s : PyStr.strip (PyStr.strip s) = PyStr.strip s.
Proof.
  unfold PyStr.strip.
  destruct (lstrip_head s) as [->|(c & r & -> & Hc)]; [done|].
  destruct (rstrip_head c r Hc) as [r' Hr]. rewrite Hr.
  cbn [PyStr.lstrip]. rewrite Hc, <- Hr. apply rstrip_idem.
Qed.

Lemma normalize_title_lower s : normalize_title (PyStr.lower s) = normalize_title s.
Proof. unfold normalize_title. by rewrite lower_idem. Qed.

Lemma normalize_title_strip s : normalize_title (PyStr.strip s) = normalize_title s.
Proof. unfold normalize_title. by rewrite lower_strip, strip_idem. Qed.

(** X7: for every scorer, [similarity] ignores the letter case and the
    leading and trailing whitespace of either argument. *)
Theorem similarity_ignores_case_and_margins (token_set_ratio : scorer) a b :
  similarity token_set_ratio (PyStr.lower a) b = similarity token_set_ratio a b ∧
  similarity token_set_ratio a (PyStr.lower b) = similarity token_set_ratio a b ∧
  similarity token_set_ratio (PyStr.strip a) b = similarity token_set_ratio a b ∧
  similarity token_set_ratio a (PyStr.strip b) = similarity token_set_ratio a b.
Proof.
  unfold similarity.
  by rewrite !normalize_title_lower, !normalize_title_strip.
Qed.

End NormalizerShape.

(* ===================================================================== *)
(** * The local pipeline: clustering followed by export                   *)
(* ===================================================================== *)

Section Pipeline.

Variable token_set_ratio : scorer.

Lemma zip_fst_snd {A B} (l : list (A * B)) : PyStr.zip (l.*1) (l.*2) = l.
Proof. induction l as [|[a b] l IH]; [done|]. cbn. by rewrite IH. Qed.

Lemma product_rows_keys (c : Spec.Cluster) :
  (λ r : list string, (r !! 1, r !! 2)) <$> product_rows (Spec.product c)
  = (λ m, (Some (site m), Some (id m))) <$> Spec.member_list c.
Proof.
  unfold product_rows, Spec.product, Spec.member_list.
  cbn [members confidence_scores].
  rewrite zip_fst_snd, <- !list_fmap_compose. by apply list_fmap_ext.
Qed.

Lemma cluster_rows_keys (scs : list Spec.Cluster) :
  (λ r : list string, (r !! 1, r !! 2))
    <$> ((Spec.product <$> scs) ≫= product_rows)
  = (λ m, (Some (site m), Some (id m)))
      <$> concat (Spec.member_list <$> scs).
Proof.
  induction scs as [|c scs IH]; [done|].
  cbn [fmap list_fmap mbind list_bind concat].
  rewrite !fmap_app. f_equal; [apply product_rows_keys|apply IH].
Qed.

Lemma members_total (scs : list Spec.Cluster) :
  sum_list (length ∘ members ∘ Spec.product <$> scs)
  = length (concat (Spec.member_list <$> scs)).
Proof.
  induction scs as [|c scs IH]; [done|].
  cbn [fmap list_fmap concat sum_list sum_list_with].
  rewrite length_app, <- IH. done.
Qed.

(** X8: the local pipeline writes nothing for an empty collection, and
    otherwise the header followed by exactly one row per collected market:
    the (site, id) columns of the rows are a rearrangement of those of
    the markets, and the row count is the sum of the member counts. *)
Theorem run_local_mode_one_row_per_market collected :
  run_local_mode_csv token_set_ratio [] = ok None ∧
  (collected ≠ [] →
   ∃ unified rows,
     run_pipeline token_set_ratio collected = ok unified ∧
     run_local_mode_csv token_set_ratio collected
       = ok (Some (header :: rows)) ∧
     length rows = length collected ∧
     sum_list (length ∘ members <$> unified) = length rows ∧
     (λ r : list string, (r !! 1, r !! 2)) <$> rows
       ≡ₚ (λ m, (Some (site m), Some (id m))) <$> collected).
Proof.
  split; [done|]. intros Hne.
  set (scs := Spec.clusters (similarity token_set_ratio) collected
                default_threshold).
  assert (Hrun : run_pipeline token_set_ratio collected
                 = ok (Spec.product <$> scs))
    by apply cluster_markets_reference.
  assert (Hkeys : (λ r : list string, (r !! 1, r !! 2))
                    <$> ((Spec.product <$> scs) ≫= product_rows)
                  ≡ₚ (λ m, (Some (site m), Some (id m))) <$> collected).
  { rewrite cluster_rows_keys. apply fmap_Permutation.
    apply (clusters_members_perm token_set_ratio default_threshold
             collected []). }
  exists (Spec.product <$> scs), ((Spec.product <$> scs) ≫= product_rows).
  split_and!; [done| | |  |done].
  - unfold run_local_mode_csv. destruct collected; [done|].
    by rewrite Hrun, bind_ok, export_csv_rows.
  - apply Permutation_length in Hkeys. by rewrite !length_fmap in Hkeys.
  - apply Permutation_length in Hkeys. rewrite !length_fmap in Hkeys.
    rewrite Hkeys, <- list_fmap_compose.
    pose proof (clusters_members_perm token_set_ratio default_threshold
                  collected []) as Hperm.
    apply Permutation_length in Hperm. cbn in Hperm. rewrite <- Hperm.
    apply members_total.
Qed.

End Pipeline.

Lemma run_local_mode_one_row_per_market_witness :
  ∃ unified rows,
    run_pipeline Rapidfuzz.token_set_ratio [market_x; market_y; market_xy]
      = ok unified ∧
    run_local_mode_csv Rapidfuzz.token_set_ratio
      [market_x; market_y; market_xy] = ok (Some (header :: rows)) ∧
    length rows = 3 ∧
    sum_list (length ∘ members <$> unified) = length rows ∧
    (λ r : list string, (r !! 1, r !! 2)) <$> rows
      ≡ₚ (λ m, (Some (site m), Some (id m)))
           <$> [market_x; market_y; market_xy].
Proof.
  apply (proj2 (run_local_mode_one_row_per_market Rapidfuzz.token_set_ratio
                  [market_x; market_y; market_xy])).
  discriminate.
Defined.

(* ===================================================================== *)
(** * Properties of average_confidence                                    *)
(* ===================================================================== *)

Section Average.

Lemma inject_nat_succ n :
  (inject_Z (Z.of_nat (S n)) == inject_Z (Z.of_nat n) + 1)%Q.
Proof. by rewrite Nat2Z.inj_succ, <- Z.add_1_r, inject_Z_plus. Qed.

Lemma inject_nat_pos n : (0 < inject_Z (Z.of_nat (S n)))%Q.
Proof. rewrite <- (Zlt_Qlt 0). lia. Qed.

Lemma fold_Qplus_bounds lo hi (xs : list Q) :
  Forall (λ s, (lo <= s <= hi)%Q) xs →
  ∀ acc,
    (acc + inject_Z (Z.of_nat (length xs)) * lo
       <= fold_left Qplus xs acc
       <= acc + inject_Z (Z.of_nat (length xs)) * hi)%Q.
Proof.
  induction 1 as [|x xs [Hlo Hhi] _ IH]; intros acc.
  - cbn [length fold_left]. change (inject_Z (Z.of_nat 0)) with 0%Q. lra.
  - cbn [fold_left length]. destruct (IH (acc + x)%Q) as [IHlo IHhi].
    pose proof (inject_nat_succ (length xs)) as Hn.
    set (n := inject_Z (Z.of_nat (length xs))) in *.
    set (n' := inject_Z (Z.of_nat (S (length xs)))) in *.
    split.
    + apply Qle_trans with (y := (acc + x + n * lo)%Q); [|done].
      rewrite Hn. lra.
    + apply Qle_trans with (y := (acc + x + n * hi)%Q); [done|].
      rewrite Hn. lra.
Qed.

(** X9: for any product, also one that no clustering built, the average
    confidence is 0 when there are no scores (nothing is divided), and lies
    in [0,1] when every score does.  The bounds are 0 and 1 on purpose: the
    partial sums then stay between 0 and the number of scores summed, which
    are whole numbers, so rounding the float sum and the quotient cannot
    leave the interval; between two arbitrary bounds of the scores only the
    exact average is sure to lie. *)
Theorem average_confidence_unit_interval (p : UnifiedProduct) :
  (confidence_scores p = [] → average_confidence p = 0%Q) ∧
  (Forall (λ s, (0 <= s <= 1)%Q) (confidence_scores p) →
   (0 <= average_confidence p <= 1)%Q).
Proof.
  unfold average_confidence. split; [by intros ->|].
  destruct (confidence_scores p) as [|x xs] eqn:Hscores; [by intros _|].
  intros Hall.
  destruct (fold_Qplus_bounds 0 1 (x :: xs) Hall 0%Q) as [Hlo Hhi].
  pose proof (inject_nat_pos (length xs)) as Hpos.
  unfold Qsum. cbn [length] in *.
  split; [apply Qle_shift_div_l|apply Qle_shift_div_r]; (done || lra).
Qed.

Lemma average_confidence_unit_interval_witness :
  (0 <= average_confidence
          {| unified_title := "x y";
             members := [market_x; market_xy];
             confidence_scores := [1%Q; (1 # 2)%Q] |} <= 1)%Q.
Proof.
  apply (proj2 (average_confidence_unit_interval
                  {| unified_title := "x y";
                     members := [market_x; market_xy];
                     confidence_scores := [1%Q; (1 # 2)%Q] |})).
  repeat constructor; by vm_compute.
Defined.

Lemma similarity_range_for (token_set_ratio : scorer) :
  (∀ a b, (0 <= token_set_ratio a b <= 100)%Q) →
  ∀ a b, (0 <= similarity token_set_ratio a b <= 1)%Q.
Proof.
  intros Hrange a b. unfold similarity.
  destruct (Hrange (normalize_title a) (normalize_title b)).
  split; [apply Qle_shift_div_l|apply Qle_shift_div_r]; (reflexivity || lra).
Qed.

(** X10: when the scorer ranges over 0..100, the average confidence of
    every product of [cluster_markets] is positive and at most 1. *)
Theorem cluster_markets_average_confidence (token_set_ratio : scorer) :
  (∀ a b, (0 <= token_set_ratio a b <= 100)%Q) →
  ∀ markets threshold,
  ∃ unified,
    cluster_markets token_set_ratio markets threshold = ok unified ∧
    ∀ p, p ∈ unified → (0 < average_confidence p <= 1)%Q.
Proof.
  intros Hrange markets threshold.
  eexists. split; [apply cluster_markets_reference|].
  intros p (c & -> & Hc)%list_elem_of_fmap.
  pose proof (clusters_joined_ok token_set_ratio markets threshold) as Hok.
  eapply Forall_forall in Hok; [|done].
  assert (Hrest : Forall (λ s, (0 <= s <= 1)%Q) (Spec.joined c).*2).
  { rewrite (joined_ok_scores token_set_ratio threshold) by done.
    apply Forall_forall. intros s (m & -> & _)%list_elem_of_fmap.
    exact (similarity_range_for token_set_ratio Hrange _ _). }
  unfold average_confidence, Qsum.
  cbn [Spec.product confidence_scores Spec.entries fmap list_fmap snd
       fold_left length].
  change (list_fmap _ _ snd (Spec.joined c)) with ((Spec.joined c).*2).
  destruct (fold_Qplus_bounds 0 1 _ Hrest (0 + 1)%Q) as [Hlo Hhi].
  pose proof (inject_nat_pos (length (Spec.joined c).*2)) as Hpos.
  pose proof (inject_nat_succ (length (Spec.joined c).*2)) as Hn.
  split; [apply Qlt_shift_div_l|apply Qle_shift_div_r]; [done|lra|done|lra].
Qed.

End Average.

Lemma cluster_markets_average_confidence_witness :
  ∃ unified,
    cluster_markets Rapidfuzz.token_set_ratio
      [market_x; market_y; market_xy] default_threshold = ok unified ∧
    ∀ p, p ∈ unified → (0 < average_confidence p <= 1)%Q.
Proof.
  exact (cluster_markets_average_confidence Rapidfuzz.token_set_ratio
           token_set_ratio_range
           [market_x; market_y; market_xy] default_threshold).
Defined.

(* ===================================================================== *)
(** * Properties of src/config.py                                         *)
(* ===================================================================== *)

Section Config.

Lemma startswith_groq model : PyStr.startswith ("groq/" +:+ model) "groq/" = true.
Proof. reflexivity. Qed.

(** X11: with a non-empty GROQ_API_KEY the model name always starts with
    "groq/"; a name that already has the prefix is returned unchanged, so
    feeding the result back as LITELLM_MODEL gives the same name. *)
Theorem get_litellm_model_groq_prefix (env : gmap string string) :
  (truthy (getenv env "GROQ_API_KEY") = true →
   PyStr.startswith (get_litellm_model env) "groq/" = true) ∧
  (PyStr.startswith
     (default "groq/llama3-70b-8192" (getenv env "LITELLM_MODEL")) "groq/"
   = true →
   get_litellm_model env
   = default "groq/llama3-70b-8192" (getenv env "LITELLM_MODEL")) ∧
  get_litellm_model (<["LITELLM_MODEL" := get_litellm_model env]> env)
  = get_litellm_model env.
Proof.
  set (model := default "groq/llama3-70b-8192" (getenv env "LITELLM_MODEL")).
  assert (Hfirst : truthy (getenv env "GROQ_API_KEY") = true →
                   PyStr.startswith (get_litellm_model env) "groq/" = true).
  { intros Hgroq. unfold get_litellm_model. fold model. rewrite Hgroq.
    destruct (PyStr.startswith model "groq/") eqn:Hpre; cbn [andb negb];
      [done|apply startswith_groq]. }
  assert (Hkept : PyStr.startswith model "groq/" = true →
                  get_litellm_model env = model).
  { intros Hpre. unfold get_litellm_model. fold model.
    by rewrite Hpre, andb_false_r. }
  split_and!; [done|done|].
  unfold get_litellm_model at 1.
  replace (getenv (<["LITELLM_MODEL" := get_litellm_model env]> env)
             "GROQ_API_KEY")
    with (getenv env "GROQ_API_KEY")
    by (unfold getenv; by rewrite lookup_insert_ne).
  replace (getenv (<["LITELLM_MODEL" := get_litellm_model env]> env)
             "LITELLM_MODEL")
    with (Some (get_litellm_model env))
    by (unfold getenv; by rewrite lookup_insert_eq).
  cbn [default from_option]. unfold Datatypes.id.
  destruct (truthy (getenv env "GROQ_API_KEY")) eqn:Hgroq; [|done].
  by rewrite Hfirst.
Qed.

End Config.

Lemma get_litellm_model_groq_prefix_witness :
  PyStr.startswith
    (get_litellm_model
       {[ "GROQ_API_KEY" := "gsk_1"; "LITELLM_MODEL" := "llama3-8b-8192" ]})
    "groq/" = true.
Proof.
  apply (proj1 (get_litellm_model_groq_prefix
    {[ "GROQ_API_KEY" := "gsk_1"; "LITELLM_MODEL" := "llama3-8b-8192" ]})).
  reflexivity.
Defined.

(* ===================================================================== *)
(** * Properties of MetricsTracker and collect_all                        *)
(* ===================================================================== *)

Section Tracker.

Implicit Types metrics : gmap string metric_value.

Lemma metrics_init_ok : tracker_ok 0 metrics_init.
Proof. split; [done|]. by exists []. Qed.

Lemma log_metric_keys metrics metric value key :
  is_Some (log_metric metrics metric value !! key) ↔ is_Some (metrics !! key).
Proof.
  unfold log_metric. destruct (metrics !! metric) as [v|] eqn:Hv; [|done].
  assert (is_Some (<[metric := value]> metrics !! key)
          ↔ is_Some (metrics !! key)) as Hany.
  { destruct (decide (metric = key)) as [->|Hne].
    - rewrite lookup_insert_eq, Hv. split; eauto.
    - by rewrite lookup_insert_ne. }
  destruct v; try done.
  destruct (decide (metric = key)) as [->|Hne].
  - rewrite lookup_insert_eq, Hv. split; eauto.
  - by rewrite lookup_insert_ne.
Qed.

Lemma log_metric_ok n metrics metric value :
  tracker_ok n metrics →
  tracker_ok (if bool_decide (metric = "errors") then S n else n)
             (log_metric metrics metric value).
Proof.
  intros [Hkeys (l & Hl & Hn)]. split.
  { intros key. by rewrite log_metric_keys. }
  case_bool_decide as Hm.
  - subst metric. unfold log_metric. rewrite Hl.
    exists (l ++ [value]). split; [apply lookup_insert_eq|].
    rewrite length_app. cbn. lia.
  - exists l. split; [|done]. unfold log_metric.
    destruct (metrics !! metric) as [[]|]; by rewrite ?lookup_insert_ne.
Qed.

Lemma log_error_ok n metrics error context now :
  tracker_ok n metrics →
  ∃ metrics',
    log_error metrics error context now = inr metrics' ∧
    tracker_ok (S n) metrics'.
Proof.
  intros [Hkeys (l & Hl & Hn)]. unfold log_error. rewrite Hl.
  eexists. split; [done|]. split.
  - intros key. rewrite <- Hkeys.
    destruct (decide ("errors" = key)) as [<-|Hne].
    + rewrite lookup_insert_eq, Hl. split; eauto.
    + by rewrite lookup_insert_ne.
  - eexists. split; [apply lookup_insert_eq|].
    rewrite length_app. cbn. lia.
Qed.

Lemma tracker_run_ok calls : ∀ n metrics,
  tracker_ok n metrics →
  ∃ metrics',
    tracker_run calls metrics = inr metrics' ∧
    tracker_ok (n + errors_appended calls) metrics'.
Proof.
  induction calls as [|call calls IH]; intros n metrics Hok.
  - exists metrics. split; [done|]. unfold errors_appended. cbn.
    by rewrite Nat.add_0_r.
  - assert (∃ metrics1,
              tracker_step metrics call = inr metrics1 ∧
              tracker_ok (if appends_error call then S n else n) metrics1)
      as (metrics1 & Hstep & Hok1).
    { destruct call as [metric value|error context now]; cbn.
      - eexists. split; [done|]. by apply log_metric_ok.
      - by apply log_error_ok. }
    destruct (IH _ _ Hok1) as (metrics' & Hrun & Hok').
    exists metrics'. cbn [tracker_run]. rewrite Hstep. split; [done|].
    unfold errors_appended in *. rewrite filter_cons.
    destruct (appends_error call).
    + rewrite decide_True by done. cbn [length].
      by replace (n + S (length (filter _ calls)))
        with (S n + length (filter (λ c, appends_error c = true) calls))
        by lia.
    + by rewrite decide_False by done.
Qed.

Lemma get_summary_ok n metrics :
  tracker_ok n metrics →
  ∃ summary, get_summary metrics = inr summary ∧ error_count summary = n.
Proof.
  intros [Hkeys (l & Hl & Hn)].
  assert (Hitem : ∀ key, is_Some (metrics_init !! key) →
                         ∃ v, metric_item metrics key = inr v).
  { intros key [v Hv]%Hkeys. exists v. unfold metric_item. by rewrite Hv. }
  destruct (Hitem "markets_collected") as [v1 H1]; [done|].
  destruct (Hitem "sites_scraped") as [v2 H2]; [done|].
  destruct (Hitem "unified_products") as [v3 H3]; [done|].
  destruct (Hitem "processing_time") as [v4 H4]; [done|].
  unfold get_summary. rewrite H1, H2, H3, H4.
  unfold metric_item at 1. rewrite Hl. cbn. eauto.
Qed.

(** X12: whatever calls are made on a fresh tracker, none raises, the
    set of metric names never changes, and [get_summary] succeeds with an
    error count equal to the number of calls that appended to "errors". *)
Theorem tracker_never_raises (calls : list tracker_call) :
  ∃ metrics summary,
    tracker_run calls metrics_init = inr metrics ∧
    (∀ key, is_Some (metrics !! key) ↔ is_Some (metrics_init !! key)) ∧
    get_summary metrics = inr summary ∧
    error_count summary = errors_appended calls.
Proof.
  destruct (tracker_run_ok calls 0 metrics_init metrics_init_ok)
    as (metrics & Hrun & Hok).
  destruct (get_summary_ok _ _ Hok) as (summary & Hsum & Hcount).
  exists metrics, summary. split_and!; [done|apply Hok|done|done].
Qed.

Lemma collecting_init : collecting metrics_init (MInt 0) [].
Proof. by split_and!. Qed.

Lemma log_metric_scalar metrics metric old value :
  metrics !! metric = Some old →
  (∀ l, old ≠ MList l) →
  log_metric metrics metric value = <[metric := value]> metrics.
Proof.
  intros Hold Hscalar. unfold log_metric. rewrite Hold.
  destruct old; try done. by destruct (Hscalar l).
Qed.

Lemma collecting_site metrics sites errs name :
  collecting metrics sites errs →
  collecting (log_metric metrics "sites_scraped" (MStr name)) (MStr name) errs.
Proof.
  intros (He & Hs & Hscalar & Hm & Hu & Ht).
  rewrite (log_metric_scalar _ _ _ _ Hs Hscalar).
  split_and!; by rewrite ?lookup_insert_eq, ?lookup_insert_ne.
Qed.

Lemma collecting_error metrics sites errs error context now :
  collecting metrics sites errs →
  ∃ metrics',
    log_error metrics error context now = inr metrics' ∧
    collecting metrics' sites
      (errs ++ [MErrorInfo {| timestamp := now;
                              error_type := exception_type error;
                              error_message := exception_message error;
                              context := context |}]).
Proof.
  intros (He & Hs & Hscalar & Hm & Hu & Ht). unfold log_error. rewrite He.
  eexists. split; [done|].
  split_and!; by rewrite ?lookup_insert_eq, ?lookup_insert_ne.
Qed.

Lemma collecting_summary metrics sites errs count :
  collecting metrics sites errs →
  get_summary (log_metric metrics "markets_collected" (MInt count))
  = inr {| total_markets := MInt count;
           sites_scraped := sites;
           unified_products := MInt 0;
           error_count := length errs;
           processing_time_seconds := MInt 0 |}.
Proof.
  intros (He & Hs & Hscalar & Hm & Hu & Ht).
  rewrite (log_metric_scalar _ _ (MInt 0) _ Hm) by done.
  unfold get_summary, metric_item.
  rewrite lookup_insert_eq. rewrite !lookup_insert_ne by done.
  by rewrite Hs, Hu, He, Ht.
Qed.

(** One [try] block of [collect_all]. *)
Lemma collecting_fetch metrics sites errs (o : fetch_outcome)
    (markets : list SiteMarket) name context now :
  collecting metrics sites errs →
  ∃ metrics' errs',
    match o with
    | inr site_markets =>
        inr (markets ++ site_markets,
             log_metric metrics "sites_scraped" (MStr name))
    | inl e =>
        metrics ← log_error metrics e context now;
        inr (markets, metrics)
    end = (inr (markets ++ fetched o, metrics')
           : outcome (list SiteMarket * gmap string metric_value)) ∧
    collecting metrics' (if failed o then sites else MStr name) errs' ∧
    length errs' = length errs + Nat.b2n (failed o).
Proof.
  intros Hc. destruct o as [e|site_markets]; cbn [fetched failed Nat.b2n].
  - destruct (collecting_error _ _ _ e context now Hc) as (m' & -> & Hc').
    eexists _, _. rewrite app_nil_r. split_and!; [done|done|].
    rewrite length_app. cbn. lia.
  - eexists _, _. split_and!; [done|exact (collecting_site _ _ _ _ Hc)|lia].
Qed.

(** X13: [collect_all] on a fresh tracker never raises; it returns the
    markets of the fetchers that succeeded, in the order polymarket,
    manifold, predictit; afterwards the summary counts those markets and
    one error per failed fetcher, and "sites_scraped" holds the name of
    the last fetcher that succeeded (0 when none did). *)
Theorem collect_all_summary (polymarket manifold predictit : fetch_outcome)
    (now1 now2 now3 : string) :
  ∃ metrics,
    collect_all polymarket manifold predictit now1 now2 now3 metrics_init
    = inr (fetched polymarket ++ fetched manifold ++ fetched predictit,
           metrics) ∧
    get_summary metrics
    = inr {| total_markets :=
               MInt (Z.of_nat (length (fetched polymarket ++ fetched manifold
                                       ++ fetched predictit)));
             sites_scraped :=
               (if failed predictit
                then if failed manifold
                     then if failed polymarket
                          then MInt 0 else MStr "polymarket"
                     else MStr "manifold"
                else MStr "predictit");
             unified_products := MInt 0;
             error_count :=
               Nat.b2n (failed polymarket) + Nat.b2n (failed manifold)
               + Nat.b2n (failed predictit);
             processing_time_seconds := MInt 0 |}.
Proof.
  unfold collect_all.
  destruct (collecting_fetch metrics_init _ _ polymarket [] "polymarket"
              "polymarket_scraping" now1 collecting_init)
    as (m1 & errs1 & -> & Hc1 & Hn1).
  cbn [mbind outcome_bind].
  destruct (collecting_fetch m1 _ _ manifold ([] ++ fetched polymarket)
              "manifold" "manifold_scraping" now2 Hc1)
    as (m2 & errs2 & -> & Hc2 & Hn2).
  cbn [mbind outcome_bind].
  destruct (collecting_fetch m2 _ _ predictit
              (([] ++ fetched polymarket) ++ fetched manifold)
              "predictit" "predictit_scraping" now3 Hc2)
    as (m3 & errs3 & -> & Hc3 & Hn3).
  cbn [mbind outcome_bind].
  rewrite app_nil_l, <- app_assoc.
  eexists. split; [reflexivity|].
  rewrite (collecting_summary _ _ _ _ Hc3). do 2 f_equal.
  cbn [length] in Hn1. lia.
Qed.

End Tracker.
(* ===================================================================== *)
(** * Properties of ProductRAG                                            *)
(* ===================================================================== *)

Section RAG.

Import ProductRAG.

Context {V : Type} (encode : string → V) (cosine : V → V → Q).

Lemma tuple_le_spec (a b : Q * nat) :
  tuple_le a b ↔ (a.1 < b.1)%Q ∨ (a.1 == b.1)%Q ∧ a.2 ≤ b.2.
Proof.
  unfold tuple_le, tuple_lt.
  destruct (Qeq_bool b.1 a.1) eqn:Heq.
  - apply Qeq_bool_iff in Heq. rewrite Nat.ltb_ge. split.
    + intros Hle. right. split; [by symmetry|done].
    + intros [Hlt|[_ Hle]]; [|done]. rewrite Heq in Hlt.
      by apply Qlt_irrefl in Hlt.
  - apply Qeq_bool_neq in Heq. rewrite negb_false_iff, Qle_bool_iff. split.
    + intros Hle. left. apply Qle_lteq in Hle as [Hlt|Heq']; [done|].
      destruct Heq. by symmetry.
    + intros [Hlt|[Heq' _]]; [by apply Qlt_le_weak|].
      destruct Heq. by symmetry.
Qed.

Lemma tuple_le_total : Total tuple_le.
Proof.
  intros a b. rewrite !tuple_le_spec.
  destruct (Q_dec a.1 b.1) as [[Hlt|Hgt]|Heq]; [by left; left|by right; left|].
  destruct (Nat.le_ge_cases a.2 b.2).
  - left. right. done.
  - right. right. split; [by symmetry|done].
Qed.

Lemma tuple_le_trans : Transitive tuple_le.
Proof.
  intros a b c. rewrite !tuple_le_spec.
  intros [Hab|[Hab Hab']] [Hbc|[Hbc Hbc']].
  - left. by apply Qlt_trans with (y := b.1).
  - left. by rewrite <- Hbc.
  - left. by rewrite Hab.
  - right. split; [by rewrite Hab|lia].
Qed.

Lemma sort_reverse_perm l : sort_reverse l ≡ₚ l.
Proof.
  unfold sort_reverse.
  by rewrite reverse_Permutation, merge_sort_Permutation, reverse_Permutation.
Qed.

Lemma sort_reverse_sorted l : StronglySorted (flip tuple_le) (sort_reverse l).
Proof.
  unfold sort_reverse. apply Sorted_StronglySorted.
  - intros a b c Hab Hbc. unfold flip in *.
    by apply (tuple_le_trans c b a).
  - apply Sorted_reverse, Sorted_merge_sort, tuple_le_total.
Qed.

Lemma slice_to_take {A} (l : list A) stop :
  ∃ n, slice_to l stop = take n l ∧
       n = if (0 <=? stop)%Z then Z.to_nat stop
           else length l - Z.to_nat (- stop).
Proof. unfold slice_to. destruct (0 <=? stop)%Z; by eexists. Qed.

Lemma similarities_lookup (self : state V) query i si :
  similarities encode cosine self query !! i = Some si ↔
  ∃ embedding, embeddings self !! i = Some embedding ∧
               si = (cosine (encode query) embedding, i).
Proof.
  unfold similarities. rewrite list_lookup_imap.
  destruct (embeddings self !! i) as [e|]; cbn.
  - split; [intros [= <-]; by exists e|]. by intros (e' & [= <-] & ->).
  - split; [done|]. by intros (e' & [=] & _).
Qed.

Lemma similarities_elem_of (self : state V) query si :
  si ∈ similarities encode cosine self query ↔
  ∃ embedding, embeddings self !! si.2 = Some embedding ∧
               si.1 = cosine (encode query) embedding.
Proof.
  rewrite list_elem_of_lookup. split.
  - intros (i & (e & He & ->)%similarities_lookup). by exists e.
  - intros (e & He & Hs). exists si.2. apply similarities_lookup.
    exists e. split; [done|]. destruct si. cbn in *. by subst.
Qed.

Lemma similarities_length (self : state V) query :
  length (similarities encode cosine self query) = length (embeddings self).
Proof. unfold similarities. by rewrite length_imap. Qed.

Lemma map_result_ok {A B} (f : A → result B) (g : A → B) l :
  Forall (λ x, f x = ok (g x)) l → map_result f l = ok (g <$> l).
Proof.
  induction 1 as [|x l Hx _ IH]; [done|].
  cbn [map_result]. by rewrite Hx, IH.
Qed.

Lemma map_result_raise {A B} (f : A → result B) e l :
  (∀ x, f x = raise e ∨ ∃ y, f x = ok y) →
  Exists (λ x, f x = raise e) l →
  map_result f l = raise e.
Proof.
  intros Hf. induction 1 as [x l Hx|x l _ IH]; cbn [map_result].
  - by rewrite Hx.
  - destruct (Hf x) as [->|[y ->]]; [done|]. cbn. by rewrite IH.
Qed.

(** The result that [search_products] builds for a sorted tuple. *)
Lemma search_results (self : state V) query top_k :
  rag_consistent encode self →
  ∃ n, search_products encode cosine self query top_k
       = ok ((λ si, {| product :=
                         default {| StoredProduct.unified_title := "";
                                    StoredProduct.members := [];
                                    StoredProduct.confidence_scores := [];
                                    StoredProduct.text := "" |}
                           (products self !! si.2);
                       similarity_score := si.1 |})
               <$> take n (sort_reverse
                             (similarities encode cosine self query))) ∧
       n = if (0 <=? top_k)%Z then Z.to_nat top_k
           else length (embeddings self) - Z.to_nat (- top_k).
Proof.
  intros Hcons. unfold search_products.
  destruct (slice_to_take
              (sort_reverse (similarities encode cosine self query)) top_k)
    as (n & Hslice & Hn).
  rewrite (Permutation_length (sort_reverse_perm _)),
    similarities_length in Hn.
  exists n. destruct (embeddings self) as [|e es] eqn:Hemb.
  { unfold similarities. rewrite Hemb. cbn. by rewrite take_nil. }
  split; [|done].
  rewrite Hslice.
  apply map_result_ok, Forall_forall. intros si Hsi.
  apply subseteq_take in Hsi. rewrite sort_reverse_perm in Hsi.
  apply similarities_elem_of in Hsi as (e' & He' & _).
  destruct (Forall2_lookup_l _ _ _ _ _ Hcons He') as (p & -> & _). done.
Qed.

Lemma flip_tuple_le_score (a b : Q * nat) :
  flip tuple_le a b → (b.1 <= a.1)%Q.
Proof.
  unfold flip. intros [Hlt|[Heq _]]%tuple_le_spec.
  - by apply Qlt_le_weak.
  - rewrite Heq. apply Qle_refl.
Qed.

(** X14: on a store that pairs every product with the embedding of its
    text, [search_products] raises nothing and returns the [top_k] best
    products, best first: as many results as the slice [[:top_k]] of the
    store has entries, each a stored product with its own cosine to the
    query, in descending order of score, and a stored product that is
    left out scores at most as much as every result. *)
Theorem search_products_best_first (self : state V) query top_k :
  rag_consistent encode self →
  ∃ results,
    search_products encode cosine self query top_k = ok results ∧
    length results
    = (if (0 <=? top_k)%Z
       then Z.to_nat top_k `min` length (products self)
       else length (products self) - Z.to_nat (- top_k)) ∧
    Forall (λ r, product r ∈ products self ∧
                 similarity_score r
                 = cosine (encode query)
                     (encode (StoredProduct.text (product r)))) results ∧
    StronglySorted
      (λ r1 r2, (similarity_score r2 <= similarity_score r1)%Q) results ∧
    ∀ p, p ∈ products self →
         (∃ r, r ∈ results ∧ product r = p) ∨
         Forall (λ r, (cosine (encode query) (encode (StoredProduct.text p))
                       <= similarity_score r)%Q) results.
Proof.
  intros Hcons.
  destruct (search_results self query top_k Hcons) as (n & Hsearch & Hn).
  pose proof (sort_reverse_sorted (similarities encode cosine self query))
    as Hsorted.
  pose proof (sort_reverse_perm (similarities encode cosine self query))
    as Hperm.
  pose proof (Forall2_length _ _ _ Hcons) as Hlen.
  set (sorted := sort_reverse (similarities encode cosine self query)) in *.
  rewrite <- (take_drop n sorted) in Hsorted.
  eexists. split; [exact Hsearch|]. split_and!.
  - rewrite length_fmap, length_take, (Permutation_length Hperm),
      similarities_length, <- Hlen, Hn.
    destruct (0 <=? top_k)%Z; lia.
  - apply Forall_fmap, Forall_forall. intros si Hsi. cbn.
    apply subseteq_take in Hsi. rewrite Hperm in Hsi.
    apply similarities_elem_of in Hsi as (e & He & Hscore).
    destruct (Forall2_lookup_l _ _ _ _ _ Hcons He) as (p & Hp & ->).
    rewrite Hp. cbn. split; [by eapply list_elem_of_lookup_2|done].
  - apply StronglySorted_fmap with (R1 := flip tuple_le).
    + intros a b Hab. cbn. by apply flip_tuple_le_score.
    + by eapply StronglySorted_app_1_l.
  - intros p (j & Hj)%list_elem_of_lookup_1.
    destruct (Forall2_lookup_r _ _ _ _ _ Hcons Hj) as (e & He & ->).
    set (sj := (cosine (encode query) (encode (StoredProduct.text p)), j)).
    assert (Hin : sj ∈ take n sorted ++ drop n sorted).
    { rewrite take_drop, Hperm. apply similarities_elem_of. by eexists. }
    apply elem_of_app in Hin as [Hin|Hin].
    + left. eexists. split; [by apply list_elem_of_fmap_2|].
      cbn. by rewrite Hj.
    + right. apply Forall_fmap, Forall_forall. intros si Hsi. cbn.
      apply (flip_tuple_le_score si sj).
      by eapply StronglySorted_app_1_elem_of.
Qed.

(** X15: a store with fewer products than embeddings, which only a
    damaged cache can give, makes a search that reaches every embedding
    raise [IndexError]. *)
Theorem search_products_index_error (self : state V) query top_k :
  length (products self) < length (embeddings self) →
  (Z.of_nat (length (embeddings self)) <= top_k)%Z →
  search_products encode cosine self query top_k = raise IndexError.
Proof.
  intros Hshort Hall. unfold search_products.
  destruct (embeddings self) as [|e0 es] eqn:Hemb; [cbn in Hshort; lia|].
  rewrite <- Hemb in Hshort, Hall.
  pose proof (sort_reverse_perm (similarities encode cosine self query))
    as Hperm.
  unfold slice_to. replace (0 <=? top_k)%Z with true by lia.
  rewrite take_ge
    by (rewrite (Permutation_length Hperm), similarities_length; lia).
  apply map_result_raise.
  - intros si. destruct (products self !! si.2); [right; by eexists|by left].
  - apply Exists_exists.
    destruct (lookup_lt_is_Some_2 (embeddings self) (length (products self))
                Hshort) as [e He].
    exists (cosine (encode query) e, length (products self)). split.
    + rewrite Hperm. apply similarities_elem_of. by exists e.
    + cbn. by rewrite lookup_ge_None_2.
Qed.

Lemma add_products_fold (self : state V) unified_products :
  products (add_products encode self unified_products)
  = products self ++ (stored_product <$> unified_products) ∧
  embeddings (add_products encode self unified_products)
  = embeddings self
    ++ (encode ∘ StoredProduct.text ∘ stored_product <$> unified_products).
Proof.
  unfold add_products. revert self.
  induction unified_products as [|u us IH]; intros self.
  - cbn. by rewrite !app_nil_r.
  - cbn [fold_left fmap list_fmap]. destruct (IH
      {| products := products self ++ [stored_product u];
         embeddings :=
           embeddings self ++ [encode (_create_product_text u)] |})
      as [Hp He].
    split.
    + etrans; [exact Hp|]. cbn [products]. by rewrite <- app_assoc.
    + etrans; [exact He|]. cbn [embeddings]. by rewrite <- app_assoc.
Qed.

(** X16: [add_products] keeps what the store holds and appends the new
    products in order, each paired with the embedding of its text: a store
    that is consistent stays so. *)
Theorem add_products_consistent (self : state V) unified_products :
  rag_consistent encode self →
  rag_consistent encode (add_products encode self unified_products) ∧
  products (add_products encode self unified_products)
  = products self ++ (stored_product <$> unified_products) ∧
  length (embeddings (add_products encode self unified_products))
  = length (embeddings self) + length unified_products.
Proof.
  intros Hcons.
  destruct (add_products_fold self unified_products) as [Hp He].
  split_and!; [|done|by rewrite He, length_app, length_fmap].
  unfold rag_consistent. rewrite Hp, He.
  apply Forall2_app; [done|].
  apply Forall2_fmap, Forall_Forall2_diag, Forall_forall. by intros u _.
Qed.

Lemma member_sites_fold (ms : list SiteMarket) (sites : gset string) :
  fold_left (λ sites member, sites ∪ {[site member]}) ms sites
  = sites ∪ list_to_set (site <$> ms).
Proof.
  revert sites. induction ms as [|m ms IH]; intros sites; cbn.
  - by rewrite (right_id_L ∅ (∪)).
  - by rewrite IH, (assoc_L (∪)).
Qed.

Lemma product_sites_fold (ps : list StoredProduct.t) (sites : gset string) :
  fold_left
    (λ sites product,
       fold_left (λ sites member, sites ∪ {[site member]})
         (StoredProduct.members product) sites) ps sites
  = sites ∪ list_to_set (site <$> concat (StoredProduct.members <$> ps)).
Proof.
  revert sites. induction ps as [|p ps IH]; intros sites; cbn.
  - by rewrite (right_id_L ∅ (∪)).
  - by rewrite IH, member_sites_fold, fmap_app, list_to_set_app_L, (assoc_L (∪)).
Qed.

Lemma mean_finite (xs : list Q) :
  xs ≠ [] →
  mean (Some <$> xs)
  = Some (Qsum xs / inject_Z (Z.of_nat (length xs)))%Q.
Proof.
  intros Hne. unfold mean.
  destruct xs as [|x xs]; [done|]. cbn [fmap list_fmap].
  change (Some x :: (Some <$> xs)) with (Some <$> x :: xs).
  by rewrite (mapM_fmap_Some (λ x : option Q, x) Some (x :: xs)).
Qed.

Lemma stored_mean (c : Spec.Cluster) :
  mean (Some <$> StoredProduct.confidence_scores
                   (stored_product (Spec.product c)))
  = Some (average_confidence (Spec.product c)).
Proof. by rewrite mean_finite. Qed.

Lemma get_product_stats_nonempty (self : state V) :
  products self ≠ [] →
  get_product_stats self
  = Stats (length (products self))
      (sum_list ((λ p, length (StoredProduct.members p)) <$> products self))
      (fold_left
         (λ sites product,
            fold_left (λ sites member, sites ∪ {[site member]})
              (StoredProduct.members product) sites)
         (products self) ∅)
      (mean ((λ p, mean (Some <$> StoredProduct.confidence_scores p))
               <$> products self)).
Proof. unfold get_product_stats. by destruct (products self). Qed.

Variable token_set_ratio : scorer.

(** X17: after the products of [cluster_markets] are added to an empty
    store, the statistics count every product, count every collected
    market once, cover exactly the sites of the collected markets, and
    give an average confidence that is a number: the mean of the
    products' [average_confidence]. *)
Theorem get_product_stats_of_clustering markets threshold :
  markets ≠ [] →
  ∃ unified,
    cluster_markets token_set_ratio markets threshold = ok unified ∧
    get_product_stats (add_products encode init unified)
    = Stats (length unified) (length markets)
        (list_to_set (site <$> markets))
        (Some (Qsum (average_confidence <$> unified)
               / inject_Z (Z.of_nat (length unified)))%Q).
Proof.
  intros Hne.
  set (scs := Spec.clusters (similarity token_set_ratio) markets threshold).
  exists (Spec.product <$> scs).
  split; [apply cluster_markets_reference|].
  pose proof (clusters_members_perm token_set_ratio threshold markets [])
    as Hperm.
  cbn [fmap list_fmap concat app] in Hperm.
  change (fold_left _ markets []) with scs in Hperm.
  assert (Hscs : scs ≠ []).
  { intros Hnil. rewrite Hnil in Hperm. by apply Permutation_nil_l in Hperm. }
  destruct (add_products_fold init (Spec.product <$> scs)) as [Hp _].
  cbn [init products app] in Hp.
  rewrite get_product_stats_nonempty, Hp; [|rewrite Hp; by destruct scs].
  f_equal.
  - by rewrite !length_fmap.
  - rewrite <- !list_fmap_compose, <- (Permutation_length Hperm).
    apply members_total.
  - rewrite product_sites_fold, (left_id_L ∅ (∪)), <- !list_fmap_compose.
    change (StoredProduct.members ∘ stored_product ∘ Spec.product)
      with Spec.member_list.
    by rewrite Hperm.
  - rewrite <- !list_fmap_compose.
    rewrite (list_fmap_ext _ (Some ∘ average_confidence ∘ Spec.product) scs)
      by (intros; apply stored_mean).
    rewrite (list_fmap_compose (average_confidence ∘ Spec.product) Some).
    rewrite mean_finite, !length_fmap, list_fmap_compose;
      [done|by destruct scs].
Qed.

End RAG.

Lemma store_xy_b_consistent : rag_consistent length_encode store_xy_b.
Proof. vm_compute. repeat constructor. Qed.

Lemma search_products_best_first_witness :
  ∃ results,
    ProductRAG.search_products length_encode length_cosine store_xy_b
      "x" 1 = ok results ∧
    length results
    = (if (0 <=? 1)%Z
       then Z.to_nat 1 `min` length (ProductRAG.products store_xy_b)
       else length (ProductRAG.products store_xy_b) - Z.to_nat (- 1)) ∧
    Forall (λ r, ProductRAG.product r ∈ ProductRAG.products store_xy_b ∧
                 ProductRAG.similarity_score r
                 = length_cosine (length_encode "x")
                     (length_encode
                        (StoredProduct.text (ProductRAG.product r))))
      results ∧
    StronglySorted
      (λ r1 r2, (ProductRAG.similarity_score r2
                 <= ProductRAG.similarity_score r1)%Q) results ∧
    ∀ p, p ∈ ProductRAG.products store_xy_b →
         (∃ r, r ∈ results ∧ ProductRAG.product r = p) ∨
         Forall (λ r, (length_cosine (length_encode "x")
                         (length_encode (StoredProduct.text p))
                       <= ProductRAG.similarity_score r)%Q) results.
Proof.
  exact (search_products_best_first length_encode length_cosine store_xy_b
           "x" 1 store_xy_b_consistent).
Defined.

Lemma search_products_index_error_witness :
  ProductRAG.search_products length_encode length_cosine store_damaged
    "x" 5 = raise IndexError.
Proof.
  apply (search_products_index_error length_encode length_cosine
           store_damaged "x" 5); cbn; lia.
Defined.

Lemma add_products_consistent_witness :
  rag_consistent length_encode
    (ProductRAG.add_products length_encode store_xy_b [product_b]) ∧
  ProductRAG.products
    (ProductRAG.add_products length_encode store_xy_b [product_b])
  = ProductRAG.products store_xy_b ++ (stored_product <$> [product_b]) ∧
  length (ProductRAG.embeddings
            (ProductRAG.add_products length_encode store_xy_b [product_b]))
  = length (ProductRAG.embeddings store_xy_b) + length [product_b].
Proof.
  exact (add_products_consistent length_encode store_xy_b [product_b]
           store_xy_b_consistent).
Defined.

Lemma get_product_stats_of_clustering_witness :
  ∃ unified,
    cluster_markets Rapidfuzz.token_set_ratio
      [market_x; market_y; market_xy] default_threshold = ok unified ∧
    ProductRAG.get_product_stats
      (ProductRAG.add_products length_encode ProductRAG.init unified)
    = ProductRAG.Stats (length unified)
        (length [market_x; market_y; market_xy])
        (list_to_set (site <$> [market_x; market_y; market_xy]))
        (Some (Qsum (average_confidence <$> unified)
               / inject_Z (Z.of_nat (length unified)))%Q).
Proof.
  apply (get_product_stats_of_clustering length_encode
           Rapidfuzz.token_set_ratio
           [market_x; market_y; market_xy] default_threshold).
  done.
Defined.
